(** * A ZIP member reader and a lenient CSV parser

    Shallow embedding of [readFromZip], [readUInt32LE], [extractEntryAsText],
    [parseCsv] and [splitCsvLine].  The five functions stand twice in the
    sources: in [scripts/make-static-json.mjs] (the second half of
    [src/scripts/build-static-gtfs.mjs]) and in [scripts/make-calendars.mjs]
    (the second half of [src/scripts/fetch-gtfsrt.mjs]).  The second copy
    differs from the first in layout, in [readUInt32LE] not taking the
    unused [zipFile], and in [filter(Boolean)] for
    [filter(l => l.length > 0)], which agree on strings; one model serves
    both. *)

From Stdlib Require Import ZArith NArith List Ascii String Lia.
From Stdlib.Strings Require Import Byte.
From stdpp Require Import base option list gmap.

Local Open Scope Z_scope.

(** ** JavaScript values *)

(** A JS string is a sequence of UTF-16 code units. *)
Definition jsstring := list N.

(** The code units of a 7-bit literal. *)
Definition js (s : string) : jsstring :=
  (fun a => N_of_ascii a) <$> list_ascii_of_string s.

Definition DQUOTE : N := 34.
Definition COMMA : N := 44.
Definition LF : N := 10.
Definition CR : N := 13.
Definition BOM : N := 65279. (* U+FEFF *)

(** What a call can throw.  The three [Error]s the scripts raise themselves
    are named after the failure they report; the others come from the
    runtime. *)
Inductive Error : Type :=
| ENOENT                                  (* fs.openSync: no such file *)
| EBADF                                   (* fs call on a descriptor that is not open *)
| RangeError                              (* Buffer read or fs.readSync out of range *)
| TypeError                               (* property read on undefined; read into an empty buffer *)
| EocdNotFound                            (* Error("ZIP: EOCD ...") *)
| LocalHeaderCorrupt                      (* Error("ZIP: local header broken") *)
| UnsupportedCompressionMethod (code : Z) (* Error(`... ${e.method} ...`) *)
| InflateError                            (* zlib.inflateRawSync threw *)
| StringTooLong                           (* toString: text longer than the engine's strings *)
| FuelExhausted.                          (* the model's loop bound ran out (never happens) *)

Inductive Result (A : Type) : Type :=
| Ok (a : A)
| Err (e : Error).
Arguments Ok {A} a.
Arguments Err {A} e.

Definition rbind {A B} (r : Result A) (k : A -> Result B) : Result B :=
  match r with
  | Ok a => k a
  | Err e => Err e
  end.

(** ** Buffers *)

(** [Buffer.alloc(n)]: [n] zero bytes. *)
Definition Buffer_alloc (n : Z) : list byte := replicate (Z.to_nat n) x00.

Definition byteZ (b : byte) : Z := Z.of_N (Byte.to_N b).

(** [buf[i]] for an index known to be in range. *)
Definition byteAt (buf : list byte) (i : Z) : Z :=
  byteZ (default x00 (buf !! Z.to_nat i)).

Definition blen (buf : list byte) : Z := Z.of_nat (length buf).

(** [buf.readUInt32LE(offset)]: throws unless [0 <= offset <= length - 4]. *)
Definition Buffer_readUInt32LE (buf : list byte) (offset : Z) : Result Z :=
  if (offset <? 0) || (blen buf - 4 <? offset) then Err RangeError
  else Ok (byteAt buf offset
           + byteAt buf (offset + 1) * 2 ^ 8
           + byteAt buf (offset + 2) * 2 ^ 16
           + byteAt buf (offset + 3) * 2 ^ 24).

(** [buf.readUInt16LE(offset)]: throws unless [0 <= offset <= length - 2]. *)
Definition Buffer_readUInt16LE (buf : list byte) (offset : Z) : Result Z :=
  if (offset <? 0) || (blen buf - 2 <? offset) then Err RangeError
  else Ok (byteAt buf offset + byteAt buf (offset + 1) * 2 ^ 8).

(** [buf.slice(start, end)] for non-negative bounds: clamped to the buffer. *)
Definition Buffer_slice (buf : list byte) (start stop : Z) : list byte :=
  take (Z.to_nat (stop - start)) (drop (Z.to_nat start) buf).

(** ** The file system: files on disk and open descriptors *)

Record World : Type := mkWorld {
  disk : gmap jsstring (list byte);   (* path |-> contents *)
  handles : gmap nat jsstring         (* open descriptor |-> path *)
}.

(** Code that reads the world and may throw: the world is threaded through,
    and left as it is at the point of the throw. *)
Definition M (A : Type) : Type := World -> Result A * World.

Definition ret {A} (a : A) : M A := fun w => (Ok a, w).
Definition throw {A} (e : Error) : M A := fun w => (Err e, w).
Definition bind {A B} (m : M A) (k : A -> M B) : M B :=
  fun w => match m w with
           | (Ok a, w') => k a w'
           | (Err e, w') => (Err e, w')
           end.
Definition liftR {A} (r : Result A) : M A := fun w => (r, w).

Notation "'do' x <- m ; k" := (bind m (fun x => k))
  (at level 10, x name, m at level 100, k at level 200).

Definition fileOf (fd : nat) (w : World) : option (list byte) :=
  p ← handles w !! fd; disk w !! p.

(** [fs.openSync(path, "r")] *)
Definition openSync (path : jsstring) : M nat := fun w =>
  match disk w !! path with
  | None => (Err ENOENT, w)
  | Some _ =>
      let fd := fresh (dom (handles w)) in
      (Ok fd, mkWorld (disk w) (<[fd := path]> (handles w)))
  end.

(** [fs.fstatSync(fd).size] *)
Definition fstatSync_size (fd : nat) : M Z := fun w =>
  match fileOf fd w with
  | None => (Err EBADF, w)
  | Some f => (Ok (blen f), w)
  end.

(** [fs.closeSync(fd)] *)
Definition closeSync (fd : nat) : M unit := fun w =>
  match handles w !! fd with
  | None => (Err EBADF, w)
  | Some _ => (Ok tt, mkWorld (disk w) (delete fd (handles w)))
  end.

(** [src] written over [dst] from index [offset] on. *)
Definition blit (src dst : list byte) (offset : nat) : list byte :=
  take offset dst ++ src ++ drop (offset + length src) dst.

(** [n | 0]: the number as a signed 32-bit integer. *)
Definition toInt32 (n : Z) : Z :=
  let m := n mod 2 ^ 32 in
  if m <? 2 ^ 31 then m else m - 2 ^ 32.

(** [fs.readSync(fd, buffer, offset, length, position)] with a position that
    is not negative, in the order of Node's checks: a negative [offset] is
    out of range; the length is taken as a signed 32-bit integer
    ([length |= 0]), so that a length from [2^31] to [2^32 - 1] counts as
    negative; a length of zero reads nothing; an empty buffer is refused; a
    negative length, or more than the buffer holds from [offset] on, is out
    of range; then the descriptor is read: the bytes of the file from
    [position] on, at most [length] of them and fewer at the end of the
    file, are written into [buffer] from [offset] on.  The model returns the
    buffer as it is after the call (the code drops the count of bytes
    read). *)
Definition readSync (fd : nat) (buffer : list byte) (offset len position : Z)
  : M (list byte) := fun w =>
  if offset <? 0 then (Err RangeError, w)
  else
    let len := toInt32 len in
    if len =? 0 then (Ok buffer, w)
    else if blen buffer =? 0 then (Err TypeError, w)
    else if (len <? 0) || (blen buffer <? offset + len) then (Err RangeError, w)
    else match fileOf fd w with
         | None => (Err EBADF, w)
         | Some f =>
             (Ok (blit (take (Z.to_nat len) (drop (Z.to_nat position) f))
                       buffer (Z.to_nat offset)), w)
         end.

(** ** The runtime's library functions

    UTF-8 decoding, [path.basename], [String.prototype.toLowerCase] and
    [zlib.inflateRawSync] belong to Node, not to the scripts: the reader is
    stated over any implementation of them.  [inflateRawSync] answers [None]
    when it throws.  [stringTooLong] tells of a buffer whether its text is
    beyond [buffer.constants.MAX_STRING_LENGTH], the longest string of the
    engine, so that decoding it throws [ERR_STRING_TOO_LONG]. *)
Record Runtime : Type := mkRuntime {
  toString_utf8 : list byte -> jsstring;
  path_basename : jsstring -> jsstring;
  toLowerCase : jsstring -> jsstring;
  inflateRawSync : list byte -> option (list byte);
  stringTooLong : list byte -> bool
}.

(** [buf.toString("utf8")]: the decoded text, and an error when it would be
    longer than a string can be. *)
Definition Buffer_toString (rt : Runtime) (buf : list byte) : Result jsstring :=
  if stringTooLong rt buf then Err StringTooLong else Ok (toString_utf8 rt buf).

(** ** Objects used as maps *)

Definition PROTO : jsstring := js "__proto__".

(** [obj[k] = v] on an object created by [{}], for a string [v]: the key
    [__proto__] reaches the setter inherited from [Object.prototype], which
    ignores a value that is neither an object nor null, so no own property
    is made; every other key is bound to [v]. *)
Definition obj_set (k v : jsstring) (obj : gmap jsstring jsstring)
  : gmap jsstring jsstring :=
  if decide (k = PROTO) then obj else <[k := v]> obj.

(** ** The ZIP reader *)

Definition EOCD_SIG : Z := 0x06054b50.
Definition CEN_SIG : Z := 0x02014b50.
Definition LOCAL_SIG : Z := 0x04034b50.
Definition maxComment : Z := 0xffff.

(** The entries pushed by the central-directory walk:
    [{ name, localHdrOff, compSize, uncompSize, method }]. *)
Record Entry : Type := mkEntry {
  name : jsstring;
  localHdrOff : Z;
  compSize : Z;
  uncompSize : Z;
  method : Z
}.

(** [for (let i = readTail - 22; i >= 0; i--)]: the loop is run on the
    number [n] of indices left, [i = n - 1]; it starts from
    [eocdOffset = -1] and stops at the first match. *)
Fixpoint scanEocd (tail : list byte) (size readTail : Z) (n : nat) : Result Z :=
  match n with
  | O => Ok (-1)
  | S i =>
      rbind (Buffer_readUInt32LE tail (Z.of_nat i)) (fun sig =>
        if sig =? EOCD_SIG then Ok (size - readTail + Z.of_nat i)
        else scanEocd tail size readTail i)
  end.

(** [while (p + 46 <= cdBuf.length) { ... }].  Every round moves [p] forward
    by 46 or more, so the loop is run with a bound on its rounds.  A name is
    decoded from 65535 bytes at most, which is within the strings of every
    engine. *)
Fixpoint walkCentralDirectory (rt : Runtime) (fuel : nat) (cdBuf : list byte)
    (p : Z) (entries : list Entry) : Result (list Entry) :=
  if p + 46 <=? blen cdBuf then
    match fuel with
    | O => Err FuelExhausted
    | S fuel' =>
        rbind (Buffer_readUInt32LE cdBuf p) (fun sig =>
          if negb (sig =? CEN_SIG) then Ok entries (* break *)
          else
            rbind (Buffer_readUInt16LE cdBuf (p + 10)) (fun method =>
            rbind (Buffer_readUInt32LE cdBuf (p + 20)) (fun compSize =>
            rbind (Buffer_readUInt32LE cdBuf (p + 24)) (fun uncompSize =>
            rbind (Buffer_readUInt16LE cdBuf (p + 28)) (fun nameLen =>
            rbind (Buffer_readUInt16LE cdBuf (p + 30)) (fun extraLen =>
            rbind (Buffer_readUInt16LE cdBuf (p + 32)) (fun commLen =>
            rbind (Buffer_readUInt32LE cdBuf (p + 42)) (fun localHdrOff =>
              let name :=
                toString_utf8 rt (Buffer_slice cdBuf (p + 46) (p + 46 + nameLen)) in
              walkCentralDirectory rt fuel' cdBuf
                (p + (46 + nameLen + extraLen + commLen))
                (entries ++ [mkEntry name localHdrOff compSize uncompSize method])))))))))
    end
  else Ok entries.

Section Reader.
Context (rt : Runtime).

(** [readUInt32LE(zipFile, fd, pos)] (the helper of the scripts, not the
    Buffer method). *)
Definition readUInt32LE (fd : nat) (pos : Z) : M Z :=
  do b <- readSync fd (Buffer_alloc 4) 0 4 pos;
  liftR (Buffer_readUInt32LE b 0).

Definition extractEntryAsText (fd : nat) (e : Entry) : M jsstring :=
  do header <- readSync fd (Buffer_alloc 30) 0 30 (localHdrOff e);
  do sig <- liftR (Buffer_readUInt32LE header 0);
  if negb (sig =? LOCAL_SIG) then throw LocalHeaderCorrupt
  else
    do nameLen <- liftR (Buffer_readUInt16LE header 26);
    do extraLen <- liftR (Buffer_readUInt16LE header 28);
    let dataStart := localHdrOff e + 30 + nameLen + extraLen in
    do data <- readSync fd (Buffer_alloc (compSize e)) 0 (compSize e) dataStart;
    do raw <-
      (if method e =? 0 then ret data
       else if method e =? 8 then
         match inflateRawSync rt data with
         | Some r => ret r
         | None => throw InflateError
         end
       else throw (UnsupportedCompressionMethod (method e)));
    liftR (Buffer_toString rt raw).

(** [entries.filter(e => wantSet.has(path.basename(e.name).toLowerCase()))] *)
Definition pickEntries (wantSet : list jsstring) (entries : list Entry)
  : list Entry :=
  filter (fun e => toLowerCase rt (path_basename rt (name e)) ∈ wantSet) entries.

(** [for (const e of pick) out[path.basename(e.name)] = await extractEntryAsText(fd, e)] *)
Fixpoint extractPicked (fd : nat) (pick : list Entry)
    (out : gmap jsstring jsstring) : M (gmap jsstring jsstring) :=
  match pick with
  | [] => ret out
  | e :: rest =>
      do text <- extractEntryAsText fd e;
      extractPicked fd rest (obj_set (path_basename rt (name e)) text out)
  end.

(** The search for the end-of-central-directory record, backward through
    the tail of the file: the offset of the record in the file. *)
Definition locateEocd (fd : nat) : M Z :=
  do size <- fstatSync_size fd;
  let readTail := Z.min size (22 + maxComment) in
  do tail <- readSync fd (Buffer_alloc readTail) 0 readTail (size - readTail);
  do eocdOffset <- liftR (scanEocd tail size readTail (Z.to_nat (readTail - 22 + 1)));
  if eocdOffset <? 0 then throw EocdNotFound else ret eocdOffset.

(** The central directory, from the size and offset the record gives. *)
Definition readCentralDirectory (fd : nat) (eocdOffset : Z) : M (list byte) :=
  do cdSize <- readUInt32LE fd (eocdOffset + 12);
  do cdOffset <- readUInt32LE fd (eocdOffset + 16);
  readSync fd (Buffer_alloc cdSize) 0 cdSize cdOffset.

(** [readFromZip(zipFile, wantNames)], in the order of its body: open,
    find the record, read and walk the central directory, pick the wanted
    entries, extract them, close. *)
Definition readFromZip (zipFile : jsstring) (wantNames : list jsstring)
  : M (gmap jsstring jsstring) :=
  do fd <- openSync zipFile;
  do eocdOffset <- locateEocd fd;
  do cdBuf <- readCentralDirectory fd eocdOffset;
  do entries <- liftR (walkCentralDirectory rt (length cdBuf) cdBuf 0 []);
  let wantSet := toLowerCase rt <$> wantNames in
  let pick := pickEntries wantSet entries in
  do out <- extractPicked fd pick ∅;
  do _ <- closeSync fd;
  ret out.
End Reader.

(** ** The CSV parser *)

(** [line => fields]: the loop of [splitCsvLine] over the code units still to
    read, with [out], [cur] and [inQ] as the code has them.  [line[i + 1]]
    past the end is [undefined], which is no quote. *)
Fixpoint splitCsvLoop (line : jsstring) (out : list jsstring) (cur : jsstring)
    (inQ : bool) : list jsstring :=
  match line with
  | [] => out ++ [cur]
  | ch :: rest =>
      if N.eqb ch DQUOTE then
        match rest with
        | next :: rest' =>
            if inQ && N.eqb next DQUOTE
            then splitCsvLoop rest' out (cur ++ [DQUOTE]) inQ (* cur gets a quote; i++ *)
            else splitCsvLoop rest out cur (negb inQ)
        | [] => splitCsvLoop rest out cur (negb inQ)
        end
      else if N.eqb ch COMMA && negb inQ then splitCsvLoop rest (out ++ [cur]) [] inQ
      else splitCsvLoop rest out (cur ++ [ch]) inQ
  end.

Definition splitCsvLine (line : jsstring) : list jsstring :=
  splitCsvLoop line [] [] false.

(** [text.replace(/\uFEFF/, empty)]: the pattern has neither an anchor nor
    the [g] flag, so the first U+FEFF of the text is removed, wherever it
    is. *)
Fixpoint replace_FEFF (text : jsstring) : jsstring :=
  match text with
  | [] => []
  | c :: rest => if N.eqb c BOM then rest else c :: replace_FEFF rest
  end.

(** [s.split(/\r?\n/)], with [cur] the piece being read: a line feed, with
    the carriage return before it if there is one, ends a piece. *)
Fixpoint split_lines (s : jsstring) (cur : jsstring) : list jsstring :=
  match s with
  | [] => [cur]
  | c :: rest =>
      if N.eqb c LF then cur :: split_lines rest []
      else if N.eqb c CR then
        match rest with
        | next :: rest' =>
            if N.eqb next LF then cur :: split_lines rest' []
            else split_lines rest (cur ++ [c])
        | [] => split_lines rest (cur ++ [c])
        end
      else split_lines rest (cur ++ [c])
  end.

(** [const lines = text.replace(...).split(...).filter(l => l.length > 0)] *)
Definition csvLines (text : jsstring) : list jsstring :=
  filter (fun l => (0 < length l)%nat) (split_lines (replace_FEFF text) []).

(** [splitCsvLine(lines[i])]: reading [line.length] of [undefined] throws. *)
Definition splitCsvLine_at (lines : list jsstring) (i : nat)
  : Result (list jsstring) :=
  match lines !! i with
  | Some line => Ok (splitCsvLine line)
  | None => Err TypeError
  end.

(** [header.forEach((h, j) => { row[h] = cols[j] ?? empty; })], from index
    [j]: a column past the end of [cols] is [undefined] and gets the empty
    string. *)
Fixpoint forEachHeader (header : list jsstring) (j : nat) (cols : list jsstring)
    (row : gmap jsstring jsstring) : gmap jsstring jsstring :=
  match header with
  | [] => row
  | h :: hs => forEachHeader hs (S j) cols (obj_set h (default [] (cols !! j)) row)
  end.

Definition makeRow (header cols : list jsstring) : gmap jsstring jsstring :=
  forEachHeader header 0 cols ∅.

(** [cols.length === 1 && cols[0] === empty] *)
Definition isBlankRow (cols : list jsstring) : bool :=
  (length cols =? 1)%nat &&
  match cols !! 0%nat with
  | Some [] => true
  | _ => false
  end.

(** [for (let i = 1; i < lines.length; i++) { ... }], with [n] rounds left. *)
Fixpoint parseRows (header : list jsstring) (lines : list jsstring) (i n : nat)
    (out : list (gmap jsstring jsstring)) : Result (list (gmap jsstring jsstring)) :=
  match n with
  | O => Ok out
  | S n' =>
      rbind (splitCsvLine_at lines i) (fun cols =>
        if isBlankRow cols then parseRows header lines (S i) n' out (* continue *)
        else parseRows header lines (S i) n' (out ++ [makeRow header cols]))
  end.

Definition parseCsv (text : jsstring) : Result (list (gmap jsstring jsstring)) :=
  let lines := csvLines text in
  if (length lines =? 0)%nat then Ok []
  else
    rbind (splitCsvLine_at lines 0) (fun header =>
      parseRows header lines 1 (length lines - 1) []).

(** ** The file seen by offset

    What the positioned reads of the reader return, as functions of the
    contents [f] of the file. *)

(** The buffer after [fs.readSync(fd, Buffer.alloc(len), 0, len, pos)]:
    [len] bytes, those of the file from [pos] on, zero past its end. *)
Definition pread (f : list byte) (pos len : Z) : list byte :=
  blit (take (Z.to_nat len) (drop (Z.to_nat pos) f)) (Buffer_alloc len) 0.

(** The little-endian numbers at offset [p] of [f], zero bytes past the end. *)
Definition u32le (f : list byte) (p : Z) : Z :=
  byteAt f p + byteAt f (p + 1) * 2 ^ 8
  + byteAt f (p + 2) * 2 ^ 16 + byteAt f (p + 3) * 2 ^ 24.

Definition u16le (f : list byte) (p : Z) : Z :=
  byteAt f p + byteAt f (p + 1) * 2 ^ 8.

(** The world once [openSync] has opened [path]. *)
Definition opened (path : jsstring) (w : World) : World :=
  mkWorld (disk w) (<[fresh (dom (handles w)) := path]> (handles w)).

(** The tail of the file the reader looks at: its last
    [min(size, 22 + 0xffff)] bytes, so from this offset on. *)
Definition tailStart (f : list byte) : Z :=
  blen f - Z.min (blen f) (22 + maxComment).

(** [p] is where the reader finds the end-of-central-directory record: in the
    tail, with room for the 22 bytes of a record, the signature there, and
    no signature at any later place with that room. *)
Definition isEocdAt (f : list byte) (p : Z) : Prop :=
  tailStart f <= p <= blen f - 22 /\
  u32le f p = EOCD_SIG /\
  forall q, p < q <= blen f - 22 -> u32le f q <> EOCD_SIG.

(** No place of the tail with room for a record carries the signature. *)
Definition noEocd (f : list byte) : Prop :=
  forall q, tailStart f <= q <= blen f - 22 -> u32le f q <> EOCD_SIG.

(** The outcome of the backward scan, from the contents of the file. *)
Definition findEocd (f : list byte) : option Z :=
  let size := blen f in
  let readTail := Z.min size (22 + maxComment) in
  match scanEocd (pread f (size - readTail) readTail) size readTail
                 (Z.to_nat (readTail - 22 + 1)) with
  | Ok p => if p <? 0 then None else Some p
  | Err _ => None
  end.

(** The entry the walk builds from the header at [p] of the central
    directory, and the length of that header with its name, extra field and
    comment. *)
Definition entryAt (rt : Runtime) (cdBuf : list byte) (p : Z) : Entry :=
  mkEntry (toString_utf8 rt (Buffer_slice cdBuf (p + 46) (p + 46 + u16le cdBuf (p + 28))))
          (u32le cdBuf (p + 42)) (u32le cdBuf (p + 20)) (u32le cdBuf (p + 24))
          (u16le cdBuf (p + 10)).

Definition headerSpan (cdBuf : list byte) (p : Z) : Z :=
  46 + u16le cdBuf (p + 28) + u16le cdBuf (p + 30) + u16le cdBuf (p + 32).

(** Offsets and sizes of an entry are read as unsigned numbers. *)
Definition entryInRange (e : Entry) : Prop :=
  0 <= localHdrOff e /\ 0 <= compSize e.

(** The walk reads them as unsigned 32-bit numbers. *)
Definition entryU32 (e : Entry) : Prop :=
  0 <= localHdrOff e < 2 ^ 32 /\ 0 <= compSize e < 2 ^ 32.

(** The longest read that [fs.readSync] accepts is [2^31 - 1] bytes. *)
Definition readable (len : Z) : bool := len <? 2 ^ 31.

(** Where the data of an entry starts, by the lengths in its local header. *)
Definition dataStartOf (f : list byte) (e : Entry) : Z :=
  localHdrOff e + 30 + u16le f (localHdrOff e + 26) + u16le f (localHdrOff e + 28).

(** The text of a member from its data, by compression method. *)
Definition decodeMember (rt : Runtime) (method : Z) (data : list byte)
  : Result jsstring :=
  if method =? 0 then Buffer_toString rt data
  else if method =? 8 then
    match inflateRawSync rt data with
    | Some raw => Buffer_toString rt raw
    | None => Err InflateError
    end
  else Err (UnsupportedCompressionMethod method).

(** What [extractEntryAsText] answers for [e] on a descriptor open on [f]:
    the header is tested first, then the data are read, which fails for a
    size that is too large, then the method is looked at. *)
Definition extractFrom (rt : Runtime) (f : list byte) (e : Entry)
  : Result jsstring :=
  if u32le f (localHdrOff e) =? LOCAL_SIG
  then
    if readable (compSize e)
    then decodeMember rt (method e) (pread f (dataStartOf f e) (compSize e))
    else Err RangeError
  else Err LocalHeaderCorrupt.

(** The loop over the picked entries, on the contents of the file. *)
Fixpoint extractAllFrom (rt : Runtime) (f : list byte) (pick : list Entry)
    (out : gmap jsstring jsstring) : Result (gmap jsstring jsstring) :=
  match pick with
  | [] => Ok out
  | e :: rest =>
      rbind (extractFrom rt f e) (fun text =>
        extractAllFrom rt f rest (obj_set (path_basename rt (name e)) text out))
  end.

(** The central directory the record at [p] points to, and the size the
    record states for it. *)
Definition centralDirectoryOf (f : list byte) (p : Z) : list byte :=
  pread f (u32le f (p + 16)) (u32le f (p + 12)).

Definition directorySize (f : list byte) (p : Z) : Z := u32le f (p + 12).

(** The entries of the central directory, in its order, as the call on an
    archive with contents [f] walks them; and those it selects for the
    wanted names. *)
Definition centralEntries (rt : Runtime) (f : list byte) : list Entry :=
  match findEocd f with
  | None => []
  | Some p =>
      let cdBuf := centralDirectoryOf f p in
      match walkCentralDirectory rt (length cdBuf) cdBuf 0 [] with
      | Ok entries => entries
      | Err _ => []
      end
  end.

Definition selectedEntries (rt : Runtime) (f : list byte)
    (wantNames : list jsstring) : list Entry :=
  pickEntries rt (toLowerCase rt <$> wantNames) (centralEntries rt f).

(** [walked rt cdBuf q entries]: the walk of [cdBuf] from offset 0 comes to
    the entry boundary [q] with [entries] read so far. *)
Inductive walked (rt : Runtime) (cdBuf : list byte) : Z -> list Entry -> Prop :=
| walked_start : walked rt cdBuf 0 []
| walked_next q entries :
    walked rt cdBuf q entries ->
    q + 46 <= blen cdBuf ->
    u32le cdBuf q = CEN_SIG ->
    walked rt cdBuf (q + headerSpan cdBuf q) (entries ++ [entryAt rt cdBuf q]).

(** The record a data line gives under a header, or none when the line is
    skipped. *)
Definition rowOf (header : list jsstring) (line : jsstring)
  : option (gmap jsstring jsstring) :=
  let cols := splitCsvLine line in
  if isBlankRow cols then None else Some (makeRow header cols).

(** ** A runtime for 7-bit data, and sample archives

    To run the reader on concrete archives the four library functions need
    values.  [node7] follows Node where names and contents are 7-bit text
    and deflated members are made of stored blocks, which is all the samples
    below use; outside that range it is no model of Node.  Its longest
    string is that of a 64-bit V8, [2^29 - 24] code units, one for each
    byte of 7-bit text. *)
Module Sample.

(** UTF-8 decoding of 7-bit bytes: one code unit per byte.  (A byte from
    0x80 on is answered by U+FFFD; Node decodes multi-byte sequences.) *)
Definition toString7 (b : list byte) : jsstring :=
  (fun x => if (Byte.to_N x <? 128)%N then Byte.to_N x else 0xFFFD%N) <$> b.

Fixpoint drop_slashes (s : jsstring) : jsstring :=
  match s with
  | c :: rest => if N.eqb c 47 then drop_slashes rest else s
  | [] => []
  end.

Fixpoint upto_slash (s : jsstring) : jsstring :=
  match s with
  | c :: rest => if N.eqb c 47 then [] else c :: upto_slash rest
  | [] => []
  end.

(** [path.posix.basename(p)]: scanning from the end, trailing slashes are
    skipped and the piece up to the slash before it is returned. *)
Definition basename_posix (p : jsstring) : jsstring :=
  reverse (upto_slash (drop_slashes (reverse p))).

(** [toLowerCase] on 7-bit text: A-Z go to a-z. *)
Definition lower7 (s : jsstring) : jsstring :=
  (fun c => if ((65 <=? c) && (c <=? 90))%N then (c + 32)%N else c) <$> s.

(** Raw inflate of a stream of stored blocks (RFC 1951, 3.2.4): a header
    byte whose bit 0 is BFINAL and bits 1-2 are BTYPE = 00, then LEN, its
    one's complement NLEN, and LEN literal bytes.  A compressed block is
    beyond this function, which then answers [None]. *)
Fixpoint inflate_stored (fuel : nat) (d : list byte) : option (list byte) :=
  match fuel, d with
  | S fuel', hdr :: l0 :: l1 :: n0 :: n1 :: rest =>
      let len := byteZ l0 + byteZ l1 * 2 ^ 8 in
      let nlen := byteZ n0 + byteZ n1 * 2 ^ 8 in
      if negb (Z.land (byteZ hdr) 6 =? 0) then None
      else if negb (len + nlen =? 65535) then None
      else if blen rest <? len then None
      else
        let block := take (Z.to_nat len) rest in
        if Z.testbit (byteZ hdr) 0 then Some block
        else app block <$> inflate_stored fuel' (drop (Z.to_nat len) rest)
  | _, _ => None
  end.

Definition node7 : Runtime :=
  mkRuntime toString7 basename_posix lower7
            (fun d => inflate_stored (length d) d)
            (fun b => 2 ^ 29 - 24 <? blen b).

(** *** Building archives *)

Definition byte_of (n : Z) : byte :=
  default x00 (Byte.of_N (Z.to_N (n mod 256))).

Definition bytes (l : list Z) : list byte := byte_of <$> l.

Definition le16 (n : Z) : list byte := bytes [n; n / 2 ^ 8].
Definition le32 (n : Z) : list byte :=
  bytes [n; n / 2 ^ 8; n / 2 ^ 16; n / 2 ^ 24].

(** The bytes of a 7-bit literal. *)
Definition text (s : string) : list byte :=
  (fun a => byte_of (Z.of_N (N_of_ascii a))) <$> list_ascii_of_string s.

(** A local file header (30 bytes, name, extra field) and the data. *)
Definition localFile (sig method : Z) (fname extra data : list byte) : list byte :=
  le32 sig ++ le16 20 ++ le16 0 ++ le16 method ++ le16 0 ++ le16 0
  ++ le32 0 ++ le32 (blen data) ++ le32 (blen data)
  ++ le16 (blen fname) ++ le16 (blen extra) ++ fname ++ extra ++ data.

(** A central-directory header (46 bytes and the name). *)
Definition centralHeader (sig method size : Z) (fname : list byte) (off : Z)
  : list byte :=
  le32 sig ++ le16 20 ++ le16 20 ++ le16 0 ++ le16 method ++ le16 0 ++ le16 0
  ++ le32 0 ++ le32 size ++ le32 size
  ++ le16 (blen fname) ++ le16 0 ++ le16 0 ++ le16 0 ++ le16 0 ++ le32 0
  ++ le32 off ++ fname.

(** The end-of-central-directory record, without comment. *)
Definition eocd (count cdSize cdOffset : Z) : list byte :=
  le32 EOCD_SIG ++ le16 0 ++ le16 0 ++ le16 count ++ le16 count
  ++ le32 cdSize ++ le32 cdOffset ++ le16 0.

(** An archive from its local part and its central directory. *)
Definition archive (locals central : list byte) (count : Z) : list byte :=
  locals ++ central ++ eocd count (blen central) (blen locals).

Definition zipPath : jsstring := js "gtfs.zip".

(** A world with one archive on disk and no descriptor open. *)
Definition worldOf (file : list byte) : World :=
  mkWorld {[ zipPath := file ]} ∅.

End Sample.

(** *** Sample archives *)
Module Zips.
Import Sample.

(** Two stored members with the same base name, in two directories. *)
Definition first_x : list byte :=
  localFile LOCAL_SIG 0 (text "a/x.txt") [] (text "one").
Definition second_x : list byte :=
  localFile LOCAL_SIG 0 (text "b/x.txt") [] (text "two").
Definition dupZip : list byte :=
  archive (first_x ++ second_x)
          (centralHeader CEN_SIG 0 3 (text "a/x.txt") 0
           ++ centralHeader CEN_SIG 0 3 (text "b/x.txt") (blen first_x))
          2.

(** The first ten bytes of that archive. *)
Definition truncatedZip : list byte := take 10 dupZip.

(** One stored member; in the central directory its header is followed by
    46 zero bytes where the next header would start. *)
Definition junkZip : list byte :=
  archive (localFile LOCAL_SIG 0 (text "x.txt") [] (text "one"))
          (centralHeader CEN_SIG 0 3 (text "x.txt") 0 ++ bytes (replicate 46 0))
          2.

(** One member with compression method 12. *)
Definition bzipZip : list byte :=
  archive (localFile LOCAL_SIG 12 (text "x.txt") [] (text "one"))
          (centralHeader CEN_SIG 12 3 (text "x.txt") 0)
          1.

(** One stored member whose local header has a four-byte extra field that
    the central directory does not list. *)
Definition extraZip : list byte :=
  archive (localFile LOCAL_SIG 0 (text "x.txt") (bytes [1; 2; 3; 4]) (text "one"))
          (centralHeader CEN_SIG 0 3 (text "x.txt") 0)
          1.

(** One member whose local header does not start with the signature. *)
Definition brokenZip : list byte :=
  archive (localFile 0 0 (text "x.txt") [] (text "one"))
          (centralHeader CEN_SIG 0 3 (text "x.txt") 0)
          1.

(** One deflated member: a single stored block holding [one]. *)
Definition deflatedZip : list byte :=
  archive (localFile LOCAL_SIG 8 (text "x.txt") []
             (bytes [1; 3; 0; 252; 255] ++ text "one"))
          (centralHeader CEN_SIG 8 8 (text "x.txt") 0)
          1.

(** One stored member of three bytes whose central header states a
    compressed size of [2^31]; and the same with method 12. *)
Definition hugeSizeZip : list byte :=
  archive (localFile LOCAL_SIG 0 (text "x.txt") [] (text "one"))
          (centralHeader CEN_SIG 0 (2 ^ 31) (text "x.txt") 0)
          1.
Definition hugeBzipZip : list byte :=
  archive (localFile LOCAL_SIG 12 (text "x.txt") [] (text "one"))
          (centralHeader CEN_SIG 12 (2 ^ 31) (text "x.txt") 0)
          1.

(** One member with method 12 whose local header does not start with the
    signature. *)
Definition brokenBzipZip : list byte :=
  archive (localFile 0 12 (text "x.txt") [] (text "one"))
          (centralHeader CEN_SIG 12 3 (text "x.txt") 0)
          1.

(** One stored member, and an end record that states a central directory
    of [2^31] bytes. *)
Definition hugeDirectoryZip : list byte :=
  let locals := localFile LOCAL_SIG 0 (text "x.txt") [] (text "one") in
  locals ++ centralHeader CEN_SIG 0 3 (text "x.txt") 0
  ++ eocd 1 (2 ^ 31) (blen locals).

(** Two stored members named [__proto__], in two directories. *)
Definition protoZip : list byte :=
  let first := localFile LOCAL_SIG 0 (text "a/__proto__") [] (text "one") in
  archive (first ++ localFile LOCAL_SIG 0 (text "b/__proto__") [] (text "two"))
          (centralHeader CEN_SIG 0 3 (text "a/__proto__") 0
           ++ centralHeader CEN_SIG 0 3 (text "b/__proto__") (blen first))
          2.

(** One stored member [calendar.txt] with a header line and one data line. *)
Definition calendarText : list byte :=
  text "service_id,monday" ++ bytes [10] ++ text "S1,1" ++ bytes [10].
Definition calendarZip : list byte :=
  archive (localFile LOCAL_SIG 0 (text "calendar.txt") [] calendarText)
          (centralHeader CEN_SIG 0 (blen calendarText) (text "calendar.txt") 0)
          1.
End Zips.

(** ** Writing CSV, to state what reading gives back *)

(** [parts.join(sep)] *)
Fixpoint joinWith (sep : jsstring) (parts : list jsstring) : jsstring :=
  match parts with
  | [] => []
  | [p] => p
  | p :: rest => p ++ sep ++ joinWith sep rest
  end.

(** A field between quotes, with every quote of the field doubled. *)
Definition escapeQuotes (s : jsstring) : jsstring :=
  flat_map (fun c => if N.eqb c DQUOTE then [DQUOTE; DQUOTE] else [c]) s.

Definition quoteField (s : jsstring) : jsstring :=
  DQUOTE :: escapeQuotes s ++ [DQUOTE].

(** A field that needs no quoting: no comma and no quote. *)
Definition plainField (s : jsstring) : Prop := (COMMA ∉ s) /\ (DQUOTE ∉ s).

(** A line that survives the split into lines: no line end, and no U+FEFF
    for [replace] to remove. *)
Definition plainLine (s : jsstring) : Prop := (LF ∉ s) /\ (CR ∉ s) /\ (BOM ∉ s).

(** A field as a writer puts it on a line: between quotes, or as it is. *)
Definition writeField (cell : bool * jsstring) : jsstring :=
  if cell.1 then quoteField cell.2 else cell.2.

Definition writeLine (cells : list (bool * jsstring)) : jsstring :=
  joinWith [COMMA] (writeField <$> cells).

(** A field may be written as it is only if it has no comma and no quote. *)
Definition goodCell (cell : bool * jsstring) : Prop :=
  cell.1 = false -> plainField cell.2.

(** A line that [parseCsv] reads back: it has a field, it is not the one
    empty field that makes a line be skipped, every field is written so
    that it can be read, and no field holds a line end or U+FEFF. *)
Definition goodLine (cells : list (bool * jsstring)) : Prop :=
  cells <> [] /\ snd <$> cells <> [[]]
  /\ Forall goodCell cells /\ Forall (fun c => plainLine c.2) cells.

(** Header and rows, one line each, [sep] between the lines and, if
    [trailing], after the last. *)
Definition writeCsv (sep : jsstring) (trailing : bool)
    (header : list (bool * jsstring)) (rows : list (list (bool * jsstring)))
  : jsstring :=
  joinWith sep (writeLine <$> (header :: rows)) ++ (if trailing then sep else []).


(** *** More sample archives *)
Module MoreZips.
Import Sample.

(** Three members: [x.txt] stored, [y.txt] with method 12, [z.txt] stored. *)
Definition member_x : list byte :=
  localFile LOCAL_SIG 0 (text "x.txt") [] (text "one").
Definition member_y : list byte :=
  localFile LOCAL_SIG 12 (text "y.txt") [] (text "two").
Definition member_z : list byte :=
  localFile LOCAL_SIG 0 (text "z.txt") [] (text "six").
(** One stored member named [Calendar.TXT], with a header line and a row. *)
Definition capsZip : list byte :=
  archive (localFile LOCAL_SIG 0 (text "Calendar.TXT") [] Zips.calendarText)
          (centralHeader CEN_SIG 0 (blen Zips.calendarText) (text "Calendar.TXT") 0)
          1.

Definition mixedZip : list byte :=
  archive (member_x ++ member_y ++ member_z)
          (centralHeader CEN_SIG 0 3 (text "x.txt") 0
           ++ centralHeader CEN_SIG 12 3 (text "y.txt") (blen member_x)
           ++ centralHeader CEN_SIG 0 3 (text "z.txt") (blen member_x + blen member_y))
          3.
End MoreZips.

(** ** The scripts around the reader *)

(** *** Command-line arguments ([args], in both scripts) *)

(** A value of the [args] map: the next argument, or [true]. *)
Inductive ArgValue : Type :=
| ArgText (s : jsstring)
| ArgTrue.

(** [a.startsWith("--")] *)
Definition startsWithDashes (a : jsstring) : bool :=
  match a with
  | c1 :: c2 :: _ => N.eqb c1 45 && N.eqb c2 45
  | _ => false
  end.

(** The pair that the callback of [map] returns for the argument [a] at
    index [i] of [arr]: for [--k], the key [k] (by [a.replace(/^--/, empty)])
    with the next argument when there is one, not empty and not itself
    starting with [--], and with [true] otherwise; for any other argument,
    the argument itself with [true]. *)
Definition argEntry (arr : list jsstring) (i : nat) (a : jsstring)
  : jsstring * ArgValue :=
  if startsWithDashes a then
    (drop 2 a,
     match arr !! S i with
     | Some next =>
         if negb (bool_decide (next = [])) && negb (startsWithDashes next)
         then ArgText next else ArgTrue
     | None => ArgTrue
     end)
  else (a, ArgTrue).

(** The key under which an argument is entered. *)
Definition argKey (a : jsstring) : jsstring :=
  if startsWithDashes a then drop 2 a else a.

(** [new Map(pairs)]: the pairs are set in order, a later one replacing an
    earlier one with the same key. *)
Definition Map_of (pairs : list (jsstring * ArgValue)) : gmap jsstring ArgValue :=
  foldl (fun m kv => <[kv.1 := kv.2]> m) ∅ pairs.

(** [new Map(process.argv.slice(2).map((a, i, arr) => ...))], for
    [argv = process.argv.slice(2)]. *)
Definition parseArgs (argv : list jsstring) : gmap jsstring ArgValue :=
  Map_of (imap (argEntry argv) argv).

(** [args.get("zip") || process.env.GTFS_STATIC_ZIP || empty]: [true] and
    a string that is not empty are truthy; an environment variable is
    [undefined] or a string. *)
Definition chooseZipPath (args : gmap jsstring ArgValue) (env : option jsstring)
  : ArgValue :=
  match args !! js "zip" with
  | Some ArgTrue => ArgTrue
  | Some (ArgText (c :: s)) => ArgText (c :: s)
  | _ =>
      match env with
      | Some (c :: s) => ArgText (c :: s)
      | _ => ArgText []
      end
  end.

(** *** Trips from origin to destination ([main] of the first script) *)

(** [arr[i].stop_id === id]: the field of a record is a string, or
    [undefined] when the record has no such column. *)
Definition stopIs (st : option jsstring) (id : jsstring) : bool :=
  bool_decide (st = Some id).

(** The inner loop over the stop times of one trip, from index [i] on:
    the pair [(originIdx, destIdx)] when the loop ends or breaks.  [arr]
    holds the [stop_id] of the records still to visit. *)
Fixpoint scanStops (ORIGIN_STOP_ID DEST_STOP_ID : jsstring)
    (arr : list (option jsstring)) (i originIdx : Z) : Z * Z :=
  match arr with
  | [] => (originIdx, -1)
  | st :: rest =>
      let originIdx' :=
        if stopIs st ORIGIN_STOP_ID && (originIdx =? -1) then i else originIdx in
      if stopIs st DEST_STOP_ID then (originIdx', i) (* destIdx = i; break *)
      else scanStops ORIGIN_STOP_ID DEST_STOP_ID rest (i + 1) originIdx'
  end.

(** [originIdx !== -1 && destIdx !== -1 && destIdx > originIdx] *)
Definition keepsTrip (ORIGIN_STOP_ID DEST_STOP_ID : jsstring)
    (arr : list (option jsstring)) : bool :=
  let '(originIdx, destIdx) := scanStops ORIGIN_STOP_ID DEST_STOP_ID arr 0 (-1) in
  negb (originIdx =? -1) && negb (destIdx =? -1) && (originIdx <? destIdx).

(** [finalTripIds]: all the keys of [stopTimesByTrip], or, when both stop
    ids are set (not empty), the keys of the trips the loop keeps.  The map
    is given by its entries in insertion order. *)
Definition finalTripIds `{Countable K} (ORIGIN_STOP_ID DEST_STOP_ID : jsstring)
    (stopTimesByTrip : list (K * list (option jsstring))) : gset K :=
  if negb (bool_decide (ORIGIN_STOP_ID = [])) && negb (bool_decide (DEST_STOP_ID = []))
  then list_to_set
         (fst <$> filter (fun kv => keepsTrip ORIGIN_STOP_ID DEST_STOP_ID kv.2 = true)
                         stopTimesByTrip)
  else list_to_set (fst <$> stopTimesByTrip).

(** *** The calendar tables ([scripts/make-calendars.mjs]) *)

(** [found[key] ? parseCsv(found[key]) : []], for a key that is no property
    of [Object.prototype]: an absent member and an empty one give no row. *)
Definition tableOf (found : gmap jsstring jsstring) (key : jsstring)
  : Result (list (gmap jsstring jsstring)) :=
  match found !! key with
  | Some (c :: s) => parseCsv (c :: s)
  | _ => Ok []
  end.

(** The script from [readFromZip] to [datesCsv]: the rows of
    [calendar.txt] and of [calendar_dates.txt]. *)
Definition loadCalendars (rt : Runtime) (zipPath : jsstring)
  : M (list (gmap jsstring jsstring) * list (gmap jsstring jsstring)) :=
  do found <- readFromZip rt zipPath [js "calendar.txt"; js "calendar_dates.txt"];
  do calCsv <- liftR (tableOf found (js "calendar.txt"));
  do datesCsv <- liftR (tableOf found (js "calendar_dates.txt"));
  ret (calCsv, datesCsv).


(** *** Projection of the records ([projectRows]) *)

(** What the projection needs of the language: numbers, [Number] on
    strings, [NaN], and the names of the properties of [Object.prototype],
    which every record made by [{}] inherits. *)
Record Globals : Type := mkGlobals {
  num : Type;
  Number_of : jsstring -> num;
  NaN : num;
  inherited : jsstring -> bool
}.

(** A value of a projected record: a string, a number, or the value that
    [Object.prototype] has under a name (a function, or for [__proto__] the
    prototype itself). *)
Inductive Value (G : Globals) : Type :=
| VText (s : jsstring)
| VNumber (n : num G)
| VInherited (k : jsstring).
Arguments VText {G} s.
Arguments VNumber {G} n.
Arguments VInherited {G} k.

Section Project.
Context (G : Globals).

(** [r[k]] on a record of [parseCsv]: its own field, else what it inherits,
    else [undefined]. *)
Definition rowGet (r : gmap jsstring jsstring) (k : jsstring) : option (Value G) :=
  match r !! k with
  | Some s => Some (VText s)
  | None => if inherited G k then Some (VInherited k) else None
  end.

(** [o[k]] on a projected record. *)
Definition outGet (o : gmap jsstring (Value G)) (k : jsstring) : option (Value G) :=
  match o !! k with
  | Some v => Some v
  | None => if inherited G k then Some (VInherited k) else None
  end.

(** [o[k] = v] for the values assigned here.  Under [__proto__] the
    assignment reaches the inherited setter: a string or a number is
    ignored, and the prototype itself, which is what [r[k]] gives under that
    name, leaves the prototype as it is; no property is made. *)
Definition outSet (k : jsstring) (v : Value G) (o : gmap jsstring (Value G))
  : gmap jsstring (Value G) :=
  if decide (k = PROTO) then o else <[k := v]> o.

(** [for (const k of keepCols) o[k] = r[k] ?? empty] *)
Definition keepStep (r : gmap jsstring jsstring) (o : gmap jsstring (Value G))
    (k : jsstring) : gmap jsstring (Value G) :=
  outSet k (default (VText []) (rowGet r k)) o.

(** [Number(v)]: of a number the number, of a string what [Number] reads,
    of [undefined], a function or an object [NaN]. *)
Definition toNumber (v : option (Value G)) : num G :=
  match v with
  | Some (VText s) => Number_of G s
  | Some (VNumber n) => n
  | Some (VInherited _) => NaN G
  | None => NaN G
  end.

(** [for (const nk of numericCols) if (o[nk] !== empty) o[nk] = Number(o[nk])] *)
Definition numericStep (o : gmap jsstring (Value G)) (nk : jsstring)
  : gmap jsstring (Value G) :=
  match outGet o nk with
  | Some (VText []) => o
  | v => outSet nk (VNumber (toNumber v)) o
  end.

Definition projectRow (keepCols numericCols : list jsstring)
    (r : gmap jsstring jsstring) : gmap jsstring (Value G) :=
  foldl numericStep (foldl (keepStep r) ∅ keepCols) numericCols.

Definition projectRows (rows : list (gmap jsstring jsstring))
    (keepCols numericCols : list jsstring) : list (gmap jsstring (Value G)) :=
  projectRow keepCols numericCols <$> rows.
End Project.

(** Globals to run the projection on samples: [Number] on strings of
    decimal digits (any other string is answered by [NaN], which is [None]
    here; that is right for the samples, not for every string), and the
    property names of [Object.prototype]. *)
Module SampleGlobals.

Fixpoint digits (s : jsstring) (acc : Z) : option Z :=
  match s with
  | [] => Some acc
  | c :: rest =>
      if ((48 <=? c) && (c <=? 57))%N
      then digits rest (10 * acc + (Z.of_N c - 48))
      else None
  end.

Definition numberOfDigits (s : jsstring) : option Z :=
  match s with
  | [] => Some 0
  | _ => digits s 0
  end.

Definition prototypeNames : list jsstring :=
  [js "constructor"; js "__defineGetter__"; js "__defineSetter__";
   js "hasOwnProperty"; js "__lookupGetter__"; js "__lookupSetter__";
   js "isPrototypeOf"; js "propertyIsEnumerable"; js "toString";
   js "valueOf"; js "__proto__"; js "toLocaleString"].

Definition globals : Globals :=
  mkGlobals (option Z) numberOfDigits None
            (fun k => bool_decide (k ∈ prototypeNames)).
End SampleGlobals.

(** * Facts *)

(** ** Results and the monad *)

Lemma bind_ok {A B} (m : M A) (k : A -> M B) w a w' :
  m w = (Ok a, w') -> bind m k w = k a w'.
Proof. intros H. unfold bind. now rewrite H. Qed.

Lemma liftR_bind {A B} (r : Result A) (k : A -> M B) w :
  bind (liftR r) k w = match r with Ok a => k a w | Err e => (Err e, w) end.
Proof. unfold bind, liftR. now destruct r. Qed.

(** ** Buffers and positioned reads *)

Lemma byteZ_range b : 0 <= byteZ b < 256.
Proof.
  unfold byteZ. pose proof (Byte.to_N_bounded b) as H.
  apply N.lt_succ_r in H. lia.
Qed.

Lemma byteAt_range buf i : 0 <= byteAt buf i < 256.
Proof. apply byteZ_range. Qed.

Lemma u32le_range f p : 0 <= u32le f p < 2 ^ 32.
Proof.
  unfold u32le.
  pose proof (byteAt_range f p). pose proof (byteAt_range f (p + 1)).
  pose proof (byteAt_range f (p + 2)). pose proof (byteAt_range f (p + 3)).
  lia.
Qed.

Lemma u16le_range f p : 0 <= u16le f p < 2 ^ 16.
Proof.
  unfold u16le.
  pose proof (byteAt_range f p). pose proof (byteAt_range f (p + 1)). lia.
Qed.

Lemma Buffer_alloc_length n : blen (Buffer_alloc n) = Z.max 0 n.
Proof. unfold blen, Buffer_alloc. rewrite length_replicate. lia. Qed.

Lemma pread_lookup f pos len (k : nat) :
  pread f pos len !! k =
  if decide (k < Z.to_nat len)%nat
  then Some (default x00 (f !! (Z.to_nat pos + k)%nat))
  else None.
Proof.
  unfold pread, blit, Buffer_alloc. rewrite take_0. simpl.
  set (n := Z.to_nat len). set (p := Z.to_nat pos).
  assert (Hlen : (length (take n (drop p f)) <= n)%nat)
    by (rewrite length_take; lia).
  destruct (decide (k < length (take n (drop p f)))%nat) as [Hk|Hk].
  - rewrite lookup_app_l by done.
    rewrite decide_True by lia.
    rewrite lookup_take_lt by (rewrite length_take in Hk; lia).
    rewrite lookup_drop.
    destruct (f !! (p + k)%nat) eqn:E; [done|].
    apply lookup_ge_None in E. rewrite length_take, length_drop in Hk. lia.
  - rewrite lookup_app_r by lia. rewrite lookup_drop.
    case_decide as Hkn.
    + rewrite lookup_replicate_2 by lia.
      rewrite length_take, length_drop in Hk.
      assert (f !! (p + k)%nat = None) as -> by (apply lookup_ge_None; lia).
      done.
    + apply lookup_replicate_None. lia.
Qed.

Lemma pread_length f pos len : blen (pread f pos len) = Z.max 0 len.
Proof.
  unfold blen.
  assert (length (pread f pos len) = Z.to_nat len) as ->; [|lia].
  apply Nat.le_antisymm.
  - apply Nat.nlt_ge. intros Hlt.
    apply lookup_lt_is_Some_2 in Hlt. rewrite pread_lookup in Hlt.
    rewrite decide_False in Hlt by lia. by destruct Hlt.
  - destruct (Z.to_nat len) as [|n] eqn:E; [lia|].
    apply Nat.lt_succ_r, Nat.lt_succ_r.
    assert (is_Some (pread f pos len !! n)) as Hs.
    { rewrite pread_lookup, E. rewrite decide_True by lia. eauto. }
    apply lookup_lt_is_Some_1 in Hs. lia.
Qed.

(** A byte of the window is the byte of the file at the same place. *)
Lemma byteAt_pread f pos len k :
  0 <= pos -> 0 <= k < len -> byteAt (pread f pos len) k = byteAt f (pos + k).
Proof.
  intros Hpos Hk. unfold byteAt. rewrite pread_lookup.
  rewrite decide_True by lia. simpl.
  replace (Z.to_nat pos + Z.to_nat k)%nat with (Z.to_nat (pos + k)) by lia.
  done.
Qed.

(** Inside the file the window is a piece of the file. *)
Lemma pread_inside f pos len :
  0 <= pos -> 0 <= len -> pos + len <= blen f ->
  pread f pos len = take (Z.to_nat len) (drop (Z.to_nat pos) f).
Proof.
  intros Hpos Hlen Hin. unfold blen in Hin.
  apply list_eq. intros k. rewrite pread_lookup.
  case_decide as Hk.
  - rewrite lookup_take_lt by lia. rewrite lookup_drop.
    destruct (f !! (Z.to_nat pos + k)%nat) eqn:E; [done|].
    apply lookup_ge_None in E. lia.
  - symmetry. apply lookup_ge_None. rewrite length_take. lia.
Qed.

Lemma Buffer_readUInt32LE_ok buf i :
  0 <= i <= blen buf - 4 ->
  Buffer_readUInt32LE buf i = Ok (u32le buf i).
Proof.
  intros H. unfold Buffer_readUInt32LE.
  destruct (i <? 0) eqn:E1; [lia|].
  destruct (blen buf - 4 <? i) eqn:E2; [lia|]. done.
Qed.

Lemma Buffer_readUInt16LE_ok buf i :
  0 <= i <= blen buf - 2 ->
  Buffer_readUInt16LE buf i = Ok (u16le buf i).
Proof.
  intros H. unfold Buffer_readUInt16LE.
  destruct (i <? 0) eqn:E1; [lia|].
  destruct (blen buf - 2 <? i) eqn:E2; [lia|]. done.
Qed.

Lemma u32le_pread f pos len k :
  0 <= pos -> 0 <= k -> k + 4 <= len ->
  u32le (pread f pos len) k = u32le f (pos + k).
Proof.
  intros. unfold u32le. rewrite !byteAt_pread by lia.
  by rewrite !Z.add_assoc.
Qed.

Lemma u16le_pread f pos len k :
  0 <= pos -> 0 <= k -> k + 2 <= len ->
  u16le (pread f pos len) k = u16le f (pos + k).
Proof.
  intros. unfold u16le. rewrite !byteAt_pread by lia.
  by rewrite !Z.add_assoc.
Qed.

Lemma toInt32_small n : 0 <= n < 2 ^ 31 -> toInt32 n = n.
Proof.
  intros Hn. unfold toInt32. rewrite Z.mod_small by lia.
  destruct (n <? 2 ^ 31) eqn:E; lia.
Qed.

Lemma toInt32_large n : 2 ^ 31 <= n < 2 ^ 32 -> toInt32 n = n - 2 ^ 32.
Proof.
  intros Hn. unfold toInt32. rewrite Z.mod_small by lia.
  destruct (n <? 2 ^ 31) eqn:E; lia.
Qed.

(** [readSync] into a fresh buffer of the length asked for, below [2^31]. *)
Lemma readSync_alloc fd f w pos len :
  fileOf fd w = Some f -> 0 <= len < 2 ^ 31 ->
  readSync fd (Buffer_alloc len) 0 len pos w = (Ok (pread f pos len), w).
Proof.
  intros Hf Hlen. unfold readSync. cbv zeta.
  rewrite toInt32_small by done. rewrite Buffer_alloc_length.
  destruct (0 <? 0) eqn:E1; [lia|].
  destruct (len =? 0) eqn:E0.
  - apply Z.eqb_eq in E0. subst len. reflexivity.
  - destruct (Z.max 0 len =? 0) eqn:E4; [lia|].
    destruct (len <? 0) eqn:E2; [lia|].
    destruct (Z.max 0 len <? 0 + len) eqn:E3; [lia|].
    simpl. rewrite Hf. done.
Qed.

(** From [2^31] on the length counts as negative, and the read is refused
    before the descriptor is looked at. *)
Lemma readSync_alloc_refused fd w pos len :
  2 ^ 31 <= len < 2 ^ 32 ->
  readSync fd (Buffer_alloc len) 0 len pos w = (Err RangeError, w).
Proof.
  intros Hlen. unfold readSync. cbv zeta.
  rewrite toInt32_large by done. rewrite Buffer_alloc_length.
  destruct (0 <? 0) eqn:E1; [lia|].
  destruct (len - 2 ^ 32 =? 0) eqn:E0; [lia|].
  destruct (Z.max 0 len =? 0) eqn:E4; [lia|].
  destruct (len - 2 ^ 32 <? 0) eqn:E2; [done|lia].
Qed.

Lemma readable_spec len : readable len = true <-> len < 2 ^ 31.
Proof. unfold readable. apply Z.ltb_lt. Qed.

Lemma readSync_alloc_u32 fd f w pos len :
  fileOf fd w = Some f -> 0 <= len < 2 ^ 32 ->
  readSync fd (Buffer_alloc len) 0 len pos w
  = (if readable len then Ok (pread f pos len) else Err RangeError, w).
Proof.
  intros Hf Hlen. unfold readable. destruct (len <? 2 ^ 31) eqn:E.
  - apply readSync_alloc; [done|lia].
  - apply readSync_alloc_refused. lia.
Qed.

Lemma Buffer_toString_fits rt buf :
  stringTooLong rt buf = false ->
  Buffer_toString rt buf = Ok (toString_utf8 rt buf).
Proof. intros H. unfold Buffer_toString. by rewrite H. Qed.

Lemma readUInt32LE_ok fd f w pos :
  fileOf fd w = Some f -> 0 <= pos ->
  readUInt32LE fd pos w = (Ok (u32le f pos), w).
Proof.
  intros Hf Hpos. unfold readUInt32LE.
  erewrite bind_ok by (apply readSync_alloc; [eassumption|lia]).
  unfold liftR. rewrite Buffer_readUInt32LE_ok by (rewrite pread_length; lia).
  rewrite u32le_pread by lia. by rewrite Z.add_0_r.
Qed.

(** ** Finding the end-of-central-directory record *)

Lemma tailStart_range f : 0 <= tailStart f <= blen f.
Proof. unfold tailStart, blen, maxComment. lia. Qed.

(** The buffer [tail] holds exactly the last [readTail] bytes of the file. *)
Lemma tail_is_suffix f :
  let readTail := Z.min (blen f) (22 + maxComment) in
  pread f (blen f - readTail) readTail = drop (Z.to_nat (tailStart f)) f
  /\ blen (drop (Z.to_nat (tailStart f)) f) = readTail.
Proof.
  intros readTail. pose proof (tailStart_range f) as Hr.
  unfold tailStart in *. fold readTail in Hr |- *.
  assert (Hlen : length (drop (Z.to_nat (blen f - readTail)) f) = Z.to_nat readTail).
  { rewrite length_drop. unfold blen in *. lia. }
  split.
  - rewrite pread_inside by (unfold blen in *; lia).
    apply take_ge. lia.
  - unfold blen in *. lia.
Qed.

(** The scan over the [n] lowest places of a buffer: it never throws, and it
    answers the highest place below [n] that carries the signature, or [-1]
    when there is none. *)
Lemma scanEocd_spec tail size readTail n :
  (n = 0%nat \/ Z.of_nat n + 3 <= blen tail) ->
  (scanEocd tail size readTail n = Ok (-1)
   /\ forall i, 0 <= i < Z.of_nat n -> u32le tail i <> EOCD_SIG)
  \/ (exists i, 0 <= i < Z.of_nat n
        /\ u32le tail i = EOCD_SIG
        /\ (forall j, i < j < Z.of_nat n -> u32le tail j <> EOCD_SIG)
        /\ scanEocd tail size readTail n = Ok (size - readTail + i)).
Proof.
  induction n as [|n IH]; intros Hn.
  - left. split; [done|]. intros i Hi. lia.
  - simpl scanEocd.
    rewrite Buffer_readUInt32LE_ok by lia. simpl rbind.
    destruct (u32le tail (Z.of_nat n) =? EOCD_SIG) eqn:E.
    + apply Z.eqb_eq in E. right. exists (Z.of_nat n).
      split; [lia|]. split; [done|]. split; [|done]. intros j Hj. lia.
    + apply Z.eqb_neq in E.
      assert (Hn' : n = 0%nat \/ Z.of_nat n + 3 <= blen tail)
        by (destruct n; [by left|right; lia]).
      destruct (IH Hn') as [[Hs Hno]|(i & Hi & Hsig & Hlater & Hs)].
      * left. split; [done|]. intros i Hi.
        destruct (decide (i = Z.of_nat n)) as [->|]; [done|].
        apply Hno. lia.
      * right. exists i. split; [lia|]. split; [done|]. split; [|done].
        intros j Hj.
        destruct (decide (j = Z.of_nat n)) as [->|]; [done|].
        apply Hlater. lia.
Qed.

Lemma findEocd_Some f p : findEocd f = Some p <-> isEocdAt f p.
Proof.
  unfold findEocd, isEocdAt.
  pose proof (tailStart_range f) as Hr.
  destruct (tail_is_suffix f) as [Htail Hlen]. simpl in Htail, Hlen.
  set (size := blen f) in *. set (readTail := Z.min size (22 + maxComment)) in *.
  assert (Hts : tailStart f = size - readTail) by done.
  set (tl := pread f (size - readTail) readTail) in *.
  assert (Hblen : blen tl = readTail) by (rewrite Htail; done).
  assert (Hu : forall i, 0 <= i -> i + 4 <= readTail ->
                 u32le tl i = u32le f (size - readTail + i)).
  { intros i H0 H4. unfold tl. apply u32le_pread; lia. }
  assert (Hpre : Z.to_nat (readTail - 22 + 1) = 0%nat
                 \/ Z.of_nat (Z.to_nat (readTail - 22 + 1)) + 3 <= blen tl)
    by (destruct (decide (readTail < 22)); [left|right]; lia).
  destruct (scanEocd_spec tl size readTail _ Hpre)
    as [[Hs Hno]|(i & Hi & Hsig & Hlater & Hs)].
  - rewrite Hs. simpl. split; [done|].
    intros (Hp & Hsig & _). exfalso.
    apply (Hno (p - (size - readTail))); [lia|].
    rewrite Hu by lia. rewrite <- Hsig. f_equal. lia.
  - rewrite Hs.
    destruct (size - readTail + i <? 0) eqn:E; [lia|].
    rewrite Hu in Hsig by lia.
    split.
    + intros [= <-]. split; [lia|]. split; [done|].
      intros q Hq Hqs. apply (Hlater (q - (size - readTail))); [lia|].
      rewrite Hu by lia. rewrite <- Hqs. f_equal. lia.
    + intros (Hp & Hps & Hpl). f_equal.
      destruct (Z.lt_trichotomy (size - readTail + i) p) as [Hlt|[Heq|Hgt]];
        [|done|].
      * exfalso. apply (Hlater (p - (size - readTail))); [lia|].
        rewrite Hu by lia. rewrite <- Hps. f_equal. lia.
      * exfalso. apply (Hpl (size - readTail + i)); [lia|done].
Qed.

Lemma findEocd_None f : findEocd f = None <-> noEocd f.
Proof.
  split.
  - intros Hn q Hq Hsig.
    (* some place matches, so the scan finds the highest one *)
    assert (exists p, isEocdAt f p) as [p Hp].
    { destruct (findEocd f) as [p|] eqn:E; [|].
      - exists p. by apply findEocd_Some.
      - clear Hn. exfalso. revert E. unfold findEocd.
        pose proof (tailStart_range f) as Hr.
        set (size := blen f) in *.
        set (readTail := Z.min size (22 + maxComment)) in *.
        assert (Hts : tailStart f = size - readTail) by done.
        set (tl := pread f (size - readTail) readTail).
        assert (Hblen : blen tl = readTail)
          by (unfold tl; rewrite pread_length; unfold readTail, maxComment, size, blen; lia).
        assert (Hpre : Z.to_nat (readTail - 22 + 1) = 0%nat
                 \/ Z.of_nat (Z.to_nat (readTail - 22 + 1)) + 3 <= blen tl)
          by (destruct (decide (readTail < 22)); [left|right]; lia).
        destruct (scanEocd_spec tl size readTail _ Hpre)
          as [[Hs Hno]|(i & Hi & _ & _ & Hs)].
        + exfalso. apply (Hno (q - (size - readTail))); [lia|].
          unfold tl. rewrite u32le_pread by lia. rewrite <- Hsig. f_equal. lia.
        + rewrite Hs. destruct (size - readTail + i <? 0) eqn:E; [lia|done]. }
    apply findEocd_Some in Hp. congruence.
  - intros Hno. destruct (findEocd f) as [p|] eqn:E; [|done].
    apply findEocd_Some in E. destruct E as (Hp & Hsig & _).
    by apply Hno in Hp.
Qed.

(** A file of fewer than 22 bytes has no place for a record. *)
Lemma short_file_noEocd f : blen f < 22 -> noEocd f.
Proof. intros Hshort q Hq. pose proof (tailStart_range f). lia. Qed.

(** [locateEocd] run on an open descriptor. *)
Lemma locateEocd_run fd f w :
  fileOf fd w = Some f ->
  locateEocd fd w =
  (match findEocd f with Some p => Ok p | None => Err EocdNotFound end, w).
Proof.
  intros Hf. unfold locateEocd.
  erewrite bind_ok by (unfold fstatSync_size; rewrite Hf; reflexivity).
  erewrite bind_ok
    by (apply readSync_alloc; [eassumption|unfold maxComment, blen; lia]).
  rewrite liftR_bind. unfold findEocd.
  set (size := blen f). set (readTail := Z.min size (22 + maxComment)).
  set (tl := pread f (size - readTail) readTail).
  assert (Hblen : blen tl = readTail)
    by (unfold tl; rewrite pread_length; unfold readTail, maxComment, size, blen; lia).
  assert (Hpre : Z.to_nat (readTail - 22 + 1) = 0%nat
                 \/ Z.of_nat (Z.to_nat (readTail - 22 + 1)) + 3 <= blen tl)
    by (destruct (decide (readTail < 22)); [left|right]; lia).
  destruct (scanEocd_spec tl size readTail _ Hpre)
    as [[Hs _]|(i & _ & _ & _ & Hs)].
  - rewrite Hs. reflexivity.
  - rewrite Hs. by destruct (size - readTail + i <? 0).
Qed.

(** The directory is read in one piece of the size the record states,
    which the read refuses from [2^31] on. *)
Lemma readCentralDirectory_run fd f w p :
  fileOf fd w = Some f -> 0 <= p ->
  readCentralDirectory fd p w =
  (if readable (directorySize f p) then Ok (centralDirectoryOf f p)
   else Err RangeError, w).
Proof.
  intros Hf Hp. unfold readCentralDirectory.
  erewrite bind_ok by (apply readUInt32LE_ok; [eassumption|lia]).
  erewrite bind_ok by (apply readUInt32LE_ok; [eassumption|lia]).
  apply readSync_alloc_u32; [done|]. apply u32le_range.
Qed.

(** ** Walking the central directory *)

Section Walk.
Context (rt : Runtime).

Lemma walk_end fuel cdBuf p entries :
  blen cdBuf < p + 46 ->
  walkCentralDirectory rt fuel cdBuf p entries = Ok entries.
Proof.
  intros H. destruct fuel; simpl;
    (destruct (p + 46 <=? blen cdBuf) eqn:E; [lia|done]).
Qed.

(** A header with the signature: one entry more, and on to the next. *)
Lemma walk_step fuel cdBuf p entries :
  0 <= p -> p + 46 <= blen cdBuf -> u32le cdBuf p = CEN_SIG ->
  walkCentralDirectory rt (S fuel) cdBuf p entries =
  walkCentralDirectory rt fuel cdBuf (p + headerSpan cdBuf p)
    (entries ++ [entryAt rt cdBuf p]).
Proof.
  intros Hp Hroom Hsig. simpl.
  destruct (p + 46 <=? blen cdBuf) eqn:E; [|lia].
  rewrite !Buffer_readUInt32LE_ok, !Buffer_readUInt16LE_ok by lia. simpl rbind.
  rewrite Hsig, Z.eqb_refl. simpl.
  reflexivity.
Qed.

(** Other bytes where a header would start: the walk ends there, with the
    entries it has, and without an error. *)
Lemma walk_break fuel cdBuf p entries :
  0 <= p -> p + 46 <= blen cdBuf -> u32le cdBuf p <> CEN_SIG ->
  walkCentralDirectory rt (S fuel) cdBuf p entries = Ok entries.
Proof.
  intros Hp Hroom Hsig. simpl.
  destruct (p + 46 <=? blen cdBuf) eqn:E; [|lia].
  rewrite Buffer_readUInt32LE_ok by lia. simpl rbind.
  apply Z.eqb_neq in Hsig. by rewrite Hsig.
Qed.

Lemma headerSpan_min cdBuf p : 46 <= headerSpan cdBuf p.
Proof.
  unfold headerSpan.
  pose proof (u16le_range cdBuf (p + 28)). pose proof (u16le_range cdBuf (p + 30)).
  pose proof (u16le_range cdBuf (p + 32)). lia.
Qed.

Lemma entryAt_U32 cdBuf p : entryU32 (entryAt rt cdBuf p).
Proof.
  unfold entryU32, entryAt. simpl.
  pose proof (u32le_range cdBuf (p + 42)). pose proof (u32le_range cdBuf (p + 20)).
  lia.
Qed.

(** With a bound that covers the bytes left, the walk answers a list of
    entries: it extends the entries it was given, and every entry it adds
    has its numbers in range. *)
Lemma walk_total fuel cdBuf p entries :
  0 <= p -> blen cdBuf - p <= 46 * Z.of_nat fuel ->
  exists more,
    walkCentralDirectory rt fuel cdBuf p entries = Ok (entries ++ more)
    /\ Forall entryU32 more.
Proof.
  revert p entries. induction fuel as [|fuel IH]; intros p entries Hp Hfuel.
  - exists []. rewrite app_nil_r. split; [|done]. apply walk_end. lia.
  - destruct (decide (p + 46 <= blen cdBuf)) as [Hroom|Hroom].
    + destruct (decide (u32le cdBuf p = CEN_SIG)) as [Hsig|Hsig].
      * rewrite walk_step by done.
        pose proof (headerSpan_min cdBuf p) as Hspan.
        destruct (IH (p + headerSpan cdBuf p) (entries ++ [entryAt rt cdBuf p]))
          as (more & Hw & Hin); [lia|lia|].
        exists (entryAt rt cdBuf p :: more).
        rewrite Hw, <- app_assoc. split; [done|].
        constructor; [apply entryAt_U32|done].
      * exists []. rewrite app_nil_r. split; [|done]. by apply walk_break.
    + exists []. rewrite app_nil_r. split; [|done]. apply walk_end. lia.
Qed.

(** The bound the reader passes is enough. *)
Lemma walk_from_start cdBuf :
  exists entries,
    walkCentralDirectory rt (length cdBuf) cdBuf 0 [] = Ok entries
    /\ Forall entryU32 entries.
Proof.
  destruct (walk_total (length cdBuf) cdBuf 0 []) as (more & Hw & Hin);
    [lia|unfold blen; lia|].
  exists more. by rewrite Hw.
Qed.
End Walk.

(** ** Extracting an entry *)

Lemma entryU32_inRange e : entryU32 e -> entryInRange e.
Proof. unfold entryU32, entryInRange. lia. Qed.

Section Extract.
Context (rt : Runtime).

(** The header is read and tested before anything else of the entry is
    looked at. *)
Lemma extractEntryAsText_unsound fd f w e :
  fileOf fd w = Some f -> 0 <= localHdrOff e ->
  u32le f (localHdrOff e) <> LOCAL_SIG ->
  extractEntryAsText rt fd e w = (Err LocalHeaderCorrupt, w).
Proof.
  intros Hf Hoff Hsig. unfold extractEntryAsText.
  erewrite bind_ok by (apply readSync_alloc; [eassumption|lia]).
  rewrite liftR_bind, Buffer_readUInt32LE_ok by (rewrite pread_length; lia).
  rewrite u32le_pread, Z.add_0_r by lia.
  apply Z.eqb_neq in Hsig. by rewrite Hsig.
Qed.

Lemma extractEntryAsText_run fd f w e :
  fileOf fd w = Some f -> entryU32 e ->
  extractEntryAsText rt fd e w = (extractFrom rt f e, w).
Proof.
  intros Hf [Hoff Hsize]. unfold extractEntryAsText, extractFrom.
  erewrite bind_ok by (apply readSync_alloc; [eassumption|lia]).
  rewrite liftR_bind, Buffer_readUInt32LE_ok by (rewrite pread_length; lia).
  rewrite u32le_pread, Z.add_0_r by lia.
  destruct (u32le f (localHdrOff e) =? LOCAL_SIG) eqn:Esig; simpl; [|done].
  rewrite liftR_bind, Buffer_readUInt16LE_ok by (rewrite pread_length; lia).
  rewrite liftR_bind, Buffer_readUInt16LE_ok by (rewrite pread_length; lia).
  rewrite !u16le_pread by lia.
  fold (dataStartOf f e).
  unfold bind at 1. rewrite (readSync_alloc_u32 fd f) by done.
  destruct (readable (compSize e)); [|done].
  unfold decodeMember.
  destruct (method e =? 0); [by rewrite bind_ok with (a := pread f (dataStartOf f e) (compSize e)) (w' := w)|].
  destruct (method e =? 8); [|done].
  destruct (inflateRawSync rt _); done.
Qed.

Lemma extractPicked_run fd f w pick out :
  fileOf fd w = Some f -> Forall entryU32 pick ->
  extractPicked rt fd pick out w = (extractAllFrom rt f pick out, w).
Proof.
  intros Hf Hin. revert out.
  induction Hin as [|e rest He Hrest IH]; intros out; [done|].
  simpl. unfold bind. rewrite (extractEntryAsText_run fd f) by done.
  destruct (extractFrom rt f e) as [text|err]; simpl; [apply IH|done].
Qed.

Lemma pickEntries_U32 wantSet entries :
  Forall entryU32 entries ->
  Forall entryU32 (pickEntries rt wantSet entries).
Proof.
  intros H. unfold pickEntries. apply Forall_forall. intros e He.
  apply list_elem_of_filter in He as [_ He].
  by eapply Forall_forall in H.
Qed.

Lemma fileOf_opened path f w :
  disk w !! path = Some f ->
  fileOf (fresh (dom (handles w))) (opened path w) = Some f.
Proof.
  intros Hd. unfold fileOf, opened. simpl.
  by rewrite lookup_insert_eq.
Qed.

Lemma close_opened path w :
  closeSync (fresh (dom (handles w))) (opened path w) = (Ok tt, w).
Proof.
  unfold closeSync, opened. simpl. rewrite lookup_insert_eq.
  rewrite delete_insert_eq.
  rewrite delete_id by (apply not_elem_of_dom, is_fresh).
  by destruct w.
Qed.

(** The whole call, on a world that has the archive on disk: what it
    answers, and the world it leaves. *)
Lemma readFromZip_run path wants f w :
  disk w !! path = Some f ->
  readFromZip rt path wants w =
  match findEocd f with
  | None => (Err EocdNotFound, opened path w)
  | Some p =>
      if readable (directorySize f p) then
        let cdBuf := centralDirectoryOf f p in
        match walkCentralDirectory rt (length cdBuf) cdBuf 0 [] with
        | Err e => (Err e, opened path w)
        | Ok entries =>
            match extractAllFrom rt f
                    (pickEntries rt (toLowerCase rt <$> wants) entries) ∅ with
            | Ok out => (Ok out, w)
            | Err e => (Err e, opened path w)
            end
        end
      else (Err RangeError, opened path w)
  end.
Proof.
  intros Hd. unfold readFromZip.
  assert (Hopen : openSync path w = (Ok (fresh (dom (handles w))), opened path w))
    by (unfold openSync; by rewrite Hd).
  rewrite (bind_ok _ _ _ _ _ Hopen).
  pose proof (fileOf_opened path f w Hd) as Hf.
  set (fd := fresh (dom (handles w))) in *.
  unfold bind at 1. rewrite (locateEocd_run fd f) by done.
  destruct (findEocd f) as [p|] eqn:Ep; [|done].
  assert (0 <= p) as Hp.
  { apply findEocd_Some in Ep as [[Hp _] _].
    pose proof (tailStart_range f). lia. }
  unfold bind at 1. rewrite (readCentralDirectory_run fd f) by done.
  destruct (readable (directorySize f p)); [|done].
  cbv zeta.
  rewrite liftR_bind.
  destruct (walk_from_start rt (centralDirectoryOf f p)) as (entries & Hw & Hin).
  rewrite Hw.
  unfold bind at 1.
  rewrite (extractPicked_run fd f) by (done || by apply pickEntries_U32).
  destruct (extractAllFrom rt f _ ∅) as [out|err]; [|done].
  unfold bind. unfold fd. by rewrite close_opened.
Qed.
End Extract.

(** ** The call as a whole *)

Lemma obj_set_lookup_eq (k v : jsstring) (obj : gmap jsstring jsstring) :
  k <> PROTO -> obj_set k v obj !! k = Some v.
Proof. intros Hk. unfold obj_set. rewrite decide_False by done. apply lookup_insert_eq. Qed.

Lemma obj_set_lookup_ne (k k' v : jsstring) (obj : gmap jsstring jsstring) :
  k <> k' -> obj_set k v obj !! k' = obj !! k'.
Proof.
  intros Hk. unfold obj_set. case_decide; [done|]. by apply lookup_insert_ne.
Qed.

Section Whole.
Context (rt : Runtime).

Lemma centralEntries_U32 f : Forall entryU32 (centralEntries rt f).
Proof.
  unfold centralEntries. destruct (findEocd f) as [p|]; [|done].
  cbv zeta.
  destruct (walk_from_start rt (centralDirectoryOf f p)) as (entries & Hw & Hin).
  by rewrite Hw.
Qed.

Lemma selected_U32 f wants : Forall entryU32 (selectedEntries rt f wants).
Proof. apply pickEntries_U32, centralEntries_U32. Qed.

Lemma readFromZip_selected path wants f w :
  disk w !! path = Some f ->
  readFromZip rt path wants w =
  match findEocd f with
  | None => (Err EocdNotFound, opened path w)
  | Some p =>
      if readable (directorySize f p) then
        match extractAllFrom rt f (selectedEntries rt f wants) ∅ with
        | Ok out => (Ok out, w)
        | Err e => (Err e, opened path w)
        end
      else (Err RangeError, opened path w)
  end.
Proof.
  intros Hd. rewrite (readFromZip_run rt path wants f) by done.
  unfold selectedEntries, centralEntries.
  destruct (findEocd f) as [p|]; [|done]. cbv zeta.
  destruct (walk_from_start rt (centralDirectoryOf f p)) as (entries & Hw & _).
  by rewrite Hw.
Qed.

(** A mapping is returned only after the record was found, the directory
    read and every selected entry extracted; the descriptor is closed
    then. *)
Lemma readFromZip_Ok path wants f w m w' :
  disk w !! path = Some f ->
  readFromZip rt path wants w = (Ok m, w') ->
  w' = w
  /\ (exists p, findEocd f = Some p /\ directorySize f p < 2 ^ 31)
  /\ extractAllFrom rt f (selectedEntries rt f wants) ∅ = Ok m.
Proof.
  intros Hd Hr. rewrite (readFromZip_selected path wants f) in Hr by done.
  destruct (findEocd f) as [p|]; [|done].
  destruct (readable (directorySize f p)) eqn:Er; [|done].
  destruct (extractAllFrom rt f _ ∅) as [out|err] eqn:E; [|done].
  injection Hr as <- <-. split; [done|]. split; [|done].
  exists p. split; [done|]. by apply readable_spec.
Qed.

(** A call on an archive that is on disk fails with the descriptor open. *)
Lemma readFromZip_Err path wants f w err w' :
  disk w !! path = Some f ->
  readFromZip rt path wants w = (Err err, w') ->
  w' = opened path w.
Proof.
  intros Hd Hr. rewrite (readFromZip_selected path wants f) in Hr by done.
  destruct (findEocd f) as [p|]; [|by injection Hr as _ <-].
  destruct (readable (directorySize f p)); [|by injection Hr as _ <-].
  destruct (extractAllFrom rt f _ ∅); [done|by injection Hr as _ <-].
Qed.

(** The key [__proto__] is never bound by the loop. *)
Lemma extractAllFrom_proto f pick out m :
  extractAllFrom rt f pick out = Ok m -> m !! PROTO = out !! PROTO.
Proof.
  revert out. induction pick as [|a rest IH]; intros out Hm.
  - simpl in Hm. by injection Hm as <-.
  - simpl in Hm. destruct (extractFrom rt f a) as [text|err] eqn:E; [|done].
    simpl in Hm. rewrite (IH _ Hm). unfold obj_set.
    case_decide as Hk; [done|]. by apply lookup_insert_ne.
Qed.

(** A mapping is returned only if every picked entry was extracted. *)
Lemma extractAllFrom_Ok_each f pick out m :
  extractAllFrom rt f pick out = Ok m ->
  forall e, e ∈ pick -> exists text, extractFrom rt f e = Ok text.
Proof.
  revert out. induction pick as [|a rest IH]; intros out Hm e He.
  - by apply elem_of_nil in He.
  - simpl in Hm. destruct (extractFrom rt f a) as [text|err] eqn:E; [|done].
    simpl in Hm. apply elem_of_cons in He as [->|He]; [eauto|].
    by eapply IH.
Qed.

(** A key that is the base name of no picked entry is left as it was. *)
Lemma extractAllFrom_other_keys f pick out m k :
  extractAllFrom rt f pick out = Ok m ->
  (forall e, e ∈ pick -> path_basename rt (name e) <> k) ->
  m !! k = out !! k.
Proof.
  revert out. induction pick as [|a rest IH]; intros out Hm Hk.
  - simpl in Hm. by injection Hm as <-.
  - simpl in Hm. destruct (extractFrom rt f a) as [text|err] eqn:E; [|done].
    simpl in Hm. rewrite (IH _ Hm).
    + apply obj_set_lookup_ne. apply Hk. by left.
    + intros e He. apply Hk. by right.
Qed.

(** The base name of a picked entry is bound to the text of the last
    picked entry with that base name. *)
Lemma extractAllFrom_last f pre e post out m :
  extractAllFrom rt f (pre ++ e :: post) out = Ok m ->
  (forall e', e' ∈ post -> path_basename rt (name e') <> path_basename rt (name e)) ->
  path_basename rt (name e) <> PROTO ->
  exists text, extractFrom rt f e = Ok text
               /\ m !! path_basename rt (name e) = Some text.
Proof.
  revert out. induction pre as [|a pre IH]; intros out Hm Hpost Hproto.
  - simpl in Hm. destruct (extractFrom rt f e) as [text|err] eqn:E; [|done].
    simpl in Hm. exists text. split; [done|].
    rewrite (extractAllFrom_other_keys _ _ _ _ _ Hm Hpost).
    by apply obj_set_lookup_eq.
  - simpl in Hm. destruct (extractFrom rt f a) as [text|err] eqn:E; [|done].
    simpl in Hm. by eapply IH.
Qed.
End Whole.

Lemma signature_bytes f p :
  u32le f p = EOCD_SIG <->
  byteAt f p = 0x50 /\ byteAt f (p + 1) = 0x4b
  /\ byteAt f (p + 2) = 0x05 /\ byteAt f (p + 3) = 0x06.
Proof.
  unfold u32le, EOCD_SIG.
  pose proof (byteAt_range f p). pose proof (byteAt_range f (p + 1)).
  pose proof (byteAt_range f (p + 2)). pose proof (byteAt_range f (p + 3)).
  lia.
Qed.

Lemma elem_of_selected_U32 rt f wants e :
  e ∈ selectedEntries rt f wants -> entryU32 e.
Proof.
  intros He. pose proof (selected_U32 rt f wants) as H.
  by eapply Forall_forall in H.
Qed.

(** The call returns a mapping only if every selected entry is extracted. *)
Lemma readFromZip_Ok_each rt path wants f w m w' :
  disk w !! path = Some f ->
  readFromZip rt path wants w = (Ok m, w') ->
  forall e, e ∈ selectedEntries rt f wants ->
    exists text, extractFrom rt f e = Ok text.
Proof.
  intros Hd Hr.
  destruct (readFromZip_Ok rt path wants f w m w' Hd Hr) as (_ & _ & E).
  by eapply extractAllFrom_Ok_each.
Qed.

(** * The claims *)









(** C4, on an archive where the claim fails.  [a/x.txt] holds [one] and
    comes first in the central directory, [b/x.txt] holds [two]; both are
    selected for [x.txt], and the mapping returned binds [x.txt] to [two],
    the text of the later entry. *)
Lemma same_basename_later_entry_returned :
  let e1 := mkEntry (js "a/x.txt") 0 3 3 0 in
  let e2 := mkEntry (js "b/x.txt") 40 3 3 0 in
  centralEntries Sample.node7 Zips.dupZip = [e1; e2]
  /\ selectedEntries Sample.node7 Zips.dupZip [js "x.txt"] = [e1; e2]
  /\ extractFrom Sample.node7 Zips.dupZip e1 = Ok (js "one")
  /\ extractFrom Sample.node7 Zips.dupZip e2 = Ok (js "two")
  /\ readFromZip Sample.node7 Sample.zipPath [js "x.txt"] (Sample.worldOf Zips.dupZip)
     = (Ok {[ js "x.txt" := js "two" ]}, Sample.worldOf Zips.dupZip).
Proof. vm_compute. repeat split; reflexivity. Qed.

(** C4, as the code has it.  When the call returns a mapping, the base name
    of a selected entry, unless it is [__proto__], is bound to the text of
    the last selected entry, in central-directory order, that has exactly
    this base name: a later entry overwrites an earlier one, and base names
    that differ in case are keys of their own.  No other key is bound; in
    particular [__proto__] is never a key of the mapping, though an entry
    with that base name is selected and extracted like every other. *)
Theorem same_basename_last_match_wins (rt : Runtime) path wants f w m w' :
  disk w !! path = Some f ->
  readFromZip rt path wants w = (Ok m, w') ->
  (forall e,
     e ∈ selectedEntries rt f wants <->
     toLowerCase rt (path_basename rt (name e)) ∈ (toLowerCase rt <$> wants)
     /\ e ∈ centralEntries rt f)
  /\ (forall pre e post,
        selectedEntries rt f wants = pre ++ e :: post ->
        (forall e', e' ∈ post ->
           path_basename rt (name e') <> path_basename rt (name e)) ->
        exists text,
          extractEntryAsText rt (fresh (dom (handles w))) e (opened path w)
            = (Ok text, opened path w)
          /\ m !! path_basename rt (name e)
             = if decide (path_basename rt (name e) = PROTO) then None
               else Some text)
  /\ (forall k,
        (forall e, e ∈ selectedEntries rt f wants -> path_basename rt (name e) <> k) ->
        m !! k = None)
  /\ m !! PROTO = None.
Proof.
  intros Hd Hr.
  destruct (readFromZip_Ok rt path wants f w m w' Hd Hr) as (-> & _ & E).
  assert (Hproto : m !! PROTO = None)
    by (rewrite (extractAllFrom_proto rt f _ ∅ m E); apply lookup_empty).
  split; [|split; [|split]].
  - intros e. unfold selectedEntries, pickEntries.
    by rewrite list_elem_of_filter.
  - intros pre e post Hsel Hpost. rewrite Hsel in E.
    assert (Hex : exists text, extractFrom rt f e = Ok text).
    { apply (extractAllFrom_Ok_each rt f _ ∅ m E). apply elem_of_app. right. by left. }
    destruct Hex as [text Ht]. exists text. split.
    + rewrite (extractEntryAsText_run rt _ f); [by rewrite Ht|by apply fileOf_opened|].
      apply (elem_of_selected_U32 rt f wants). rewrite Hsel.
      apply elem_of_app. right. by left.
    + case_decide as Hk; [by rewrite Hk|].
      destruct (extractAllFrom_last rt f pre e post ∅ m E Hpost Hk)
        as (text' & Ht' & Hm).
      congruence.
  - intros k Hk. by rewrite (extractAllFrom_other_keys rt f _ ∅ m k E Hk).
  - exact Hproto.
Qed.

(** The two entries of [x.txt]: the mapping holds the text of the second. *)
Lemma same_basename_last_match_wins_witness :
  exists text,
    extractEntryAsText Sample.node7 0 (mkEntry (js "b/x.txt") 40 3 3 0)
      (opened Sample.zipPath (Sample.worldOf Zips.dupZip))
    = (Ok text, opened Sample.zipPath (Sample.worldOf Zips.dupZip))
    /\ ({[ js "x.txt" := js "two" ]} : gmap jsstring jsstring) !! js "x.txt" = Some text.
Proof.
  pose proof (same_basename_last_match_wins Sample.node7 Sample.zipPath [js "x.txt"]
                Zips.dupZip (Sample.worldOf Zips.dupZip)
                {[ js "x.txt" := js "two" ]} (Sample.worldOf Zips.dupZip)) as H.
  destruct H as (_ & H & _).
  - vm_compute. reflexivity.
  - vm_compute. reflexivity.
  - destruct (H [mkEntry (js "a/x.txt") 0 3 3 0] (mkEntry (js "b/x.txt") 40 3 3 0) [])
      as (text & Hx & Hm).
    + vm_compute. reflexivity.
    + intros e' He'. by apply elem_of_nil in He'.
    + exists text. split; [exact Hx|].
      rewrite decide_False in Hm by (vm_compute; discriminate). exact Hm.
Defined.

(** The walk from offset 0 with a bound that covers the buffer arrives at
    every boundary of [walked] with a bound that covers the rest. *)
Lemma walk_to_boundary rt cdBuf q entries :
  walked rt cdBuf q entries ->
  0 <= q /\
  forall fuel, blen cdBuf <= 46 * Z.of_nat fuel ->
    exists fuel', blen cdBuf - q <= 46 * Z.of_nat fuel'
      /\ walkCentralDirectory rt fuel cdBuf 0 []
         = walkCentralDirectory rt fuel' cdBuf q entries.
Proof.
  induction 1 as [|q entries Hw [Hq IH] Hroom Hsig].
  - split; [lia|]. intros fuel Hfuel. exists fuel. split; [lia|done].
  - pose proof (headerSpan_min cdBuf q) as Hspan. split; [lia|].
    intros fuel Hfuel. destruct (IH fuel Hfuel) as (fuel' & Hf' & Heq).
    destruct fuel' as [|fuel']; [lia|].
    exists fuel'. split; [lia|].
    rewrite Heq. by apply walk_step.
Qed.

(** In the sample with zero bytes after its one header, the walk comes to
    offset 51 with the entry of [x.txt]. *)
Lemma junkZip_walked :
  walked Sample.node7 (centralDirectoryOf Zips.junkZip 135) 51
    [mkEntry (js "x.txt") 0 3 3 0].
Proof.
  pose proof (walked_next Sample.node7 (centralDirectoryOf Zips.junkZip 135) 0 []
                (walked_start _ _)) as H.
  assert (Hs : headerSpan (centralDirectoryOf Zips.junkZip 135) 0 = 51)
    by (vm_compute; reflexivity).
  assert (He : entryAt Sample.node7 (centralDirectoryOf Zips.junkZip 135) 0
               = mkEntry (js "x.txt") 0 3 3 0) by (vm_compute; reflexivity).
  rewrite Hs, He in H. apply H.
  - vm_compute. discriminate.
  - vm_compute. reflexivity.
Qed.




(** C9, on an archive where the claim fails.  The one member has method 12:
    the call fails with the unsupported-method error, and descriptor 0, which
    it opened on the archive, is still open when the error leaves it. *)
Lemma failed_call_leaves_handle_open :
  handles (Sample.worldOf Zips.bzipZip) = ∅
  /\ readFromZip Sample.node7 Sample.zipPath [js "x.txt"] (Sample.worldOf Zips.bzipZip)
     = (Err (UnsupportedCompressionMethod 12),
        mkWorld {[ Sample.zipPath := Zips.bzipZip ]} {[ 0%nat := Sample.zipPath ]}).
Proof. vm_compute. split; reflexivity. Qed.

(** C9, as the code has it.  A call on an archive that is on disk opens one
    descriptor; when it returns a mapping it has closed that descriptor, and
    the open descriptors are those of before the call; when it fails,
    whatever the error, the descriptor is still open as the error leaves
    the call.  It fails in this way when there is no record, when the
    record states a directory of [2^31] bytes or more, and when the
    extraction of a selected entry fails. *)
Theorem handle_closed_on_return_only (rt : Runtime) path wants f w r w' :
  disk w !! path = Some f ->
  readFromZip rt path wants w = (r, w') ->
  match r with
  | Ok _ => w' = w
  | Err err =>
      w' = opened path w
      /\ handles w !! fresh (dom (handles w)) = None
      /\ handles w' !! fresh (dom (handles w)) = Some path
  end
  /\ (findEocd f = None -> r = Err EocdNotFound)
  /\ (forall p, findEocd f = Some p -> 2 ^ 31 <= directorySize f p ->
        r = Err RangeError)
  /\ (forall p err, findEocd f = Some p -> directorySize f p < 2 ^ 31 ->
        extractAllFrom rt f (selectedEntries rt f wants) ∅ = Err err ->
        r = Err err).
Proof.
  intros Hd Hr.
  assert (Hfresh : handles w !! fresh (dom (handles w)) = None)
    by apply not_elem_of_dom, is_fresh.
  assert (Hopen : handles (opened path w) !! fresh (dom (handles w)) = Some path)
    by (unfold opened; simpl; apply lookup_insert_eq).
  split.
  - destruct r as [m|err].
    + by destruct (readFromZip_Ok rt path wants f w m w' Hd Hr) as (-> & _).
    + by rewrite (readFromZip_Err rt path wants f w err w' Hd Hr).
  - rewrite (readFromZip_selected rt path wants f) in Hr by done.
    split; [|split].
    + intros Hn. rewrite Hn in Hr. by injection Hr as <- _.
    + intros p Hp Hlarge. rewrite Hp in Hr.
      assert (readable (directorySize f p) = false) as Hf
        by (unfold readable; apply Z.ltb_ge; lia).
      rewrite Hf in Hr. by injection Hr as <- _.
    + intros p err Hp Hsmall Herr. rewrite Hp in Hr.
      apply readable_spec in Hsmall. rewrite Hsmall, Herr in Hr.
      by injection Hr as <- _.
Qed.

(** The descriptor of the failed call on the member with method 12. *)
Lemma handle_closed_on_return_only_witness :
  handles (opened Sample.zipPath (Sample.worldOf Zips.bzipZip))
    !! fresh (dom (handles (Sample.worldOf Zips.bzipZip))) = Some Sample.zipPath.
Proof.
  refine (proj2 (proj2 (proj1
    (handle_closed_on_return_only Sample.node7 Sample.zipPath [js "x.txt"]
       Zips.bzipZip (Sample.worldOf Zips.bzipZip)
       (Err (UnsupportedCompressionMethod 12))
       (opened Sample.zipPath (Sample.worldOf Zips.bzipZip)) _ _)))).
  - vm_compute. reflexivity.
  - vm_compute. reflexivity.
Defined.

(** ** The CSV parser *)

Lemma omap_cons_case {A B} (g : A -> option B) (a : A) (l : list A) :
  omap g (a :: l) = match g a with Some b => b :: omap g l | None => omap g l end.
Proof. reflexivity. Qed.

Lemma parseRows_run header lines n : forall i out,
  (i + n)%nat = length lines ->
  parseRows header lines i n out = Ok (out ++ omap (rowOf header) (drop i lines)).
Proof.
  induction n as [|n IH]; intros i out Hlen.
  - simpl. rewrite drop_ge by lia. by rewrite app_nil_r.
  - simpl. unfold splitCsvLine_at.
    destruct (lines !! i) as [line|] eqn:E.
    2:{ apply lookup_ge_None in E. lia. }
    simpl. rewrite (drop_S _ _ _ E), omap_cons_case. unfold rowOf at 1.
    destruct (isBlankRow (splitCsvLine line)).
    + apply IH. lia.
    + rewrite IH by lia. by rewrite <- app_assoc.
Qed.

(** [parseCsv] on the lines of the text: the first is the header, and every
    other line gives its record or is skipped. *)
Lemma parseCsv_run text :
  parseCsv text =
  Ok match csvLines text with
     | [] => []
     | headerLine :: dataLines => omap (rowOf (splitCsvLine headerLine)) dataLines
     end.
Proof.
  unfold parseCsv. destruct (csvLines text) as [|h data] eqn:E; [done|].
  simpl. rewrite Nat.sub_0_r.
  rewrite (parseRows_run _ (h :: data) (length data) 1 []) by (simpl; lia).
  done.
Qed.

Lemma length_omap_le {A B} (g : A -> option B) (l : list A) :
  (length (omap g l) <= length l)%nat.
Proof.
  induction l as [|a l IH]; [done|].
  rewrite omap_cons_case. destruct (g a); simpl; lia.
Qed.

Lemma forEachHeader_other header j cols row (k : jsstring) :
  k ∉ header -> forEachHeader header j cols row !! k = row !! k.
Proof.
  revert j row. induction header as [|h hs IH]; intros j row Hk; [done|].
  simpl. apply not_elem_of_cons in Hk as [Hne Hk].
  rewrite IH by done. by apply obj_set_lookup_ne.
Qed.

(** The column named at index [i] of the header, when no later column has
    the same name, gets the field at the same index of the row, or the empty
    string past the end of the row. *)
Lemma forEachHeader_lookup header cols (h : jsstring) : forall i j row,
  header !! i = Some h ->
  h ∉ drop (S i) header ->
  h <> PROTO ->
  forEachHeader header j cols row !! h = Some (default [] (cols !! (j + i)%nat)).
Proof.
  induction header as [|a hs IH]; intros i j row Hi Hlast Hproto; [done|].
  destruct i as [|i]; simpl in *.
  - injection Hi as ->. rewrite drop_0 in Hlast.
    rewrite forEachHeader_other by done.
    rewrite Nat.add_0_r. by apply obj_set_lookup_eq.
  - rewrite (IH i (S j)) by done. do 3 f_equal. lia.
Qed.

Lemma replace_FEFF_first pre post :
  BOM ∉ pre -> replace_FEFF (pre ++ BOM :: post) = pre ++ post.
Proof.
  induction pre as [|c pre IH]; intros Hpre; simpl.
  - done.
  - apply not_elem_of_cons in Hpre as [Hne Hpre].
    destruct (N.eqb c BOM) eqn:E; [apply N.eqb_eq in E; congruence|].
    by rewrite IH.
Qed.

Lemma replace_FEFF_none text : BOM ∉ text -> replace_FEFF text = text.
Proof.
  induction text as [|c text IH]; intros Hno; simpl; [done|].
  apply not_elem_of_cons in Hno as [Hne Hno].
  destruct (N.eqb c BOM) eqn:E; [apply N.eqb_eq in E; congruence|].
  by rewrite IH.
Qed.

(** A text made of line ends only has no line that is not empty. *)
Lemma split_lines_line_ends ends :
  Forall (fun t => t = [LF] \/ t = [CR; LF]) ends ->
  Forall (fun l => l = []) (split_lines (concat ends) []).
Proof.
  induction 1 as [|t ends [->| ->] _ IH]; simpl.
  - by repeat constructor.
  - by constructor.
  - by constructor.
Qed.

Lemma replace_FEFF_line_ends ends :
  Forall (fun t => t = [LF] \/ t = [CR; LF]) ends ->
  replace_FEFF (concat ends) = concat ends.
Proof.
  induction 1 as [|t ends [->| ->] _ IH]; simpl; [done| |]; by rewrite IH.
Qed.


(** C6.  Writing Q for the quote character: the field splitter makes the
    three fields [a], [b,c], [d] of the line [a,Qb,cQ,d] and the three fields
    [a], [bQc], [d] of the line [a,QbQQcQ,d].  Inside quotes a comma is a
    character of the field, and two quotes in a row add one quote to the
    field and leave the inside-quotes flag set. *)
Theorem split_quoted_fields :
  splitCsvLine (js "a," ++ [DQUOTE] ++ js "b,c" ++ [DQUOTE] ++ js ",d")
  = [js "a"; js "b,c"; js "d"]
  /\ splitCsvLine (js "a," ++ [DQUOTE] ++ js "b" ++ [DQUOTE; DQUOTE] ++ js "c"
                   ++ [DQUOTE] ++ js ",d")
     = [js "a"; js "b" ++ [DQUOTE] ++ js "c"; js "d"]
  /\ (forall rest out cur,
        splitCsvLoop (COMMA :: rest) out cur true
        = splitCsvLoop rest out (cur ++ [COMMA]) true)
  /\ (forall rest out cur,
        splitCsvLoop (DQUOTE :: DQUOTE :: rest) out cur true
        = splitCsvLoop rest out (cur ++ [DQUOTE]) true).
Proof. repeat split; reflexivity. Qed.

(** C7, the part of it that the code keeps.  [parseCsv] answers a list of
    records for every text, never an error.  The first line is the header;
    every data line that is not skipped gives the record that binds the
    column at index [i] of the header, when its name is not [__proto__] and
    no later column has the same name, to the field at index [i] of the
    line, or to the empty string when the line has no such field, and binds
    nothing else: fields past the header are dropped.  Under the header
    [a,b,c] the row [x,y] gives [{a: x, b: y, c: empty}] and the row
    [x,y,z,w] gives [{a: x, b: y, c: z}]. *)
Lemma parse_total_and_positional :
  (forall text, exists rows, parseCsv text = Ok rows)
  /\ (forall text headerLine dataLines,
        csvLines text = headerLine :: dataLines ->
        parseCsv text = Ok (omap (rowOf (splitCsvLine headerLine)) dataLines))
  /\ (forall header line,
        isBlankRow (splitCsvLine line) = false ->
        rowOf header line = Some (makeRow header (splitCsvLine line)))
  /\ (forall header cols i h,
        header !! i = Some h -> h ∉ drop (S i) header -> h <> PROTO ->
        makeRow header cols !! h = Some (default [] (cols !! i)))
  /\ (forall header cols (k : jsstring),
        k ∉ header -> makeRow header cols !! k = None)
  /\ parseCsv (js "a,b,c" ++ [LF] ++ js "x,y")
     = Ok [ {[ js "a" := js "x"; js "b" := js "y"; js "c" := [] ]} ]
  /\ parseCsv (js "a,b,c" ++ [LF] ++ js "x,y,z,w")
     = Ok [ {[ js "a" := js "x"; js "b" := js "y"; js "c" := js "z" ]} ].
Proof.
  split; [|split; [|split; [|split; [|split; [|split]]]]].
  - intros text. rewrite parseCsv_run. eauto.
  - intros text headerLine dataLines Hl. rewrite parseCsv_run. by rewrite Hl.
  - intros header line Hb. unfold rowOf. by rewrite Hb.
  - intros header cols i h Hi Hlast Hproto. unfold makeRow.
    by rewrite (forEachHeader_lookup header cols h i 0 ∅).
  - intros header cols k Hk. unfold makeRow.
    by rewrite forEachHeader_other.
  - vm_compute. reflexivity.
  - vm_compute. reflexivity.
Qed.

(** The key [__proto__] is never bound by the loop over the header. *)
Lemma forEachHeader_proto header j cols row :
  forEachHeader header j cols row !! PROTO = row !! PROTO.
Proof.
  revert j row. induction header as [|h hs IH]; intros j row; [done|].
  simpl. rewrite IH. unfold obj_set. case_decide as Hh; [done|].
  by apply lookup_insert_ne.
Qed.

(** C7, where the code departs from it.  Under the header [a,__proto__] the
    row [x,y] splits into the two fields [x] and [y], and its record is
    [{a: x}]: the field under the column [__proto__] is not in the record.
    The record is a plain object, and assigning a string to its property
    [__proto__] binds nothing: whatever the header and the fields, no
    record has the key [__proto__]. *)
Theorem proto_column_not_recorded :
  splitCsvLine (js "a,__proto__") = [js "a"; PROTO]
  /\ splitCsvLine (js "x,y") = [js "x"; js "y"]
  /\ parseCsv (js "a,__proto__" ++ [LF] ++ js "x,y") = Ok [ {[ js "a" := js "x" ]} ]
  /\ (forall header cols, makeRow header cols !! PROTO = None)
  /\ (forall text rows,
        parseCsv text = Ok rows -> Forall (fun row => row !! PROTO = None) rows).
Proof.
  split; [vm_compute; reflexivity|]. split; [vm_compute; reflexivity|].
  split; [vm_compute; reflexivity|].
  assert (Hrow : forall header cols, makeRow header cols !! PROTO = None).
  { intros header cols. unfold makeRow. rewrite forEachHeader_proto.
    apply lookup_empty. }
  split; [exact Hrow|].
  intros text rows Hr. rewrite parseCsv_run in Hr. injection Hr as <-.
  destruct (csvLines text) as [|headerLine dataLines]; [constructor|].
  apply Forall_forall. intros row Hin.
  apply list_elem_of_omap in Hin as (line & _ & Hline).
  unfold rowOf in Hline. destruct (isBlankRow _); [done|].
  injection Hline as <-. apply Hrow.
Qed.

(** C8, the part of it that the code keeps: a text that begins with U+FEFF
    is split into lines as the text without that first character is. *)
Lemma leading_FEFF_stripped text :
  csvLines (BOM :: text) = filter (fun l => (0 < length l)%nat) (split_lines text []).
Proof. reflexivity. Qed.

(** C8, where the code departs from it.  The text [a], line feed, [x U+FEFF y]
    does not begin with U+FEFF, and the field of its data line comes out as
    [xy]: the first U+FEFF of a text is removed wherever it stands, before
    the text is split into lines. *)
Theorem later_FEFF_removed :
  parseCsv (js "a" ++ [LF] ++ js "x" ++ [BOM] ++ js "y")
  = Ok [ {[ js "a" := js "xy" ]} ]
  /\ csvLines (js "a" ++ [LF] ++ js "x" ++ [BOM] ++ js "y") = [js "a"; js "xy"]
  /\ (forall pre post,
        BOM ∉ pre ->
        csvLines (pre ++ BOM :: post)
        = filter (fun l => (0 < length l)%nat) (split_lines (pre ++ post) [])).
Proof.
  split; [vm_compute; reflexivity|]. split; [vm_compute; reflexivity|].
  intros pre post Hpre. unfold csvLines. by rewrite replace_FEFF_first.
Qed.

(** C10.  [parseCsv] gives at most one record for each line after the
    header, in the order of the lines; it gives no record when the text has
    at most one line that is not empty: the empty text, a text of line ends
    only, a header alone; and a data line that splits into one empty field,
    as a line of one quote or of two quotes does, gives no record. *)
Theorem parse_record_count :
  (forall text rows,
     parseCsv text = Ok rows -> (length rows <= length (csvLines text) - 1)%nat)
  /\ (forall text, (length (csvLines text) <= 1)%nat -> parseCsv text = Ok [])
  /\ parseCsv [] = Ok []
  /\ (forall ends,
        Forall (fun t => t = [LF] \/ t = [CR; LF]) ends ->
        csvLines (concat ends) = [] /\ parseCsv (concat ends) = Ok [])
  /\ (forall text headerLine, csvLines text = [headerLine] -> parseCsv text = Ok [])
  /\ (forall text headerLine pre line post,
        csvLines text = headerLine :: pre ++ line :: post ->
        splitCsvLine line = [[]] ->
        parseCsv text = Ok (omap (rowOf (splitCsvLine headerLine)) (pre ++ post)))
  /\ splitCsvLine [DQUOTE] = [[]]
  /\ splitCsvLine [DQUOTE; DQUOTE] = [[]]
  /\ parseCsv (js "a" ++ [LF; DQUOTE; LF] ++ js "x" ++ [LF; DQUOTE; DQUOTE])
     = Ok [ {[ js "a" := js "x" ]} ].
Proof.
  assert (Hshort : forall text,
             (length (csvLines text) <= 1)%nat -> parseCsv text = Ok []).
  { intros text Hlen. rewrite parseCsv_run.
    destruct (csvLines text) as [|h [|d data]]; simpl in Hlen; [done|done|lia]. }
  split; [|split; [|split; [|split; [|split; [|split; [|split; [|split]]]]]]].
  - intros text rows. rewrite parseCsv_run. intros [= <-].
    destruct (csvLines text) as [|h data]; simpl; [lia|].
    pose proof (length_omap_le (rowOf (splitCsvLine h)) data). lia.
  - exact Hshort.
  - reflexivity.
  - intros ends Hends.
    assert (Hl : csvLines (concat ends) = []).
    { unfold csvLines. rewrite replace_FEFF_line_ends by done.
      pose proof (split_lines_line_ends ends Hends) as Hall.
      induction Hall as [|l ls -> _ IH]; [done|].
      rewrite filter_cons_False by (simpl; lia). exact IH. }
    split; [done|]. apply Hshort. rewrite Hl. simpl. lia.
  - intros text headerLine Hl. apply Hshort. rewrite Hl. simpl. lia.
  - intros text headerLine pre line post Hl Hblank.
    rewrite parseCsv_run, Hl. f_equal.
    rewrite !omap_app, omap_cons_case. unfold rowOf at 2. by rewrite Hblank.
  - reflexivity.
  - reflexivity.
  - vm_compute. reflexivity.
Qed.

(** ** The reader and the parser on sample archives *)

(** A stored [calendar.txt] comes back as the text that was stored, and
    parses to one record. *)
Example calendar_extracted_and_parsed :
  let content := js "service_id,monday" ++ [LF] ++ js "S1,1" ++ [LF] in
  readFromZip Sample.node7 Sample.zipPath [js "calendar.txt"]
    (Sample.worldOf Zips.calendarZip)
  = (Ok {[ js "calendar.txt" := content ]}, Sample.worldOf Zips.calendarZip)
  /\ parseCsv content
     = Ok [ {[ js "service_id" := js "S1"; js "monday" := js "1" ]} ].
Proof. vm_compute. split; reflexivity. Qed.

(** The wanted name is matched without regard to case. *)
Example wanted_name_any_case :
  readFromZip Sample.node7 Sample.zipPath [js "CALENDAR.TXT"]
    (Sample.worldOf Zips.calendarZip)
  = readFromZip Sample.node7 Sample.zipPath [js "calendar.txt"]
      (Sample.worldOf Zips.calendarZip).
Proof. vm_compute. reflexivity. Qed.

(** A name that no entry has is absent from the mapping; the call succeeds. *)
Example missing_member_absent :
  readFromZip Sample.node7 Sample.zipPath [js "stops.txt"]
    (Sample.worldOf Zips.calendarZip)
  = (Ok ∅, Sample.worldOf Zips.calendarZip).
Proof. vm_compute. reflexivity. Qed.

(** A deflated member is inflated. *)
Example deflated_member_extracted :
  readFromZip Sample.node7 Sample.zipPath [js "x.txt"]
    (Sample.worldOf Zips.deflatedZip)
  = (Ok {[ js "x.txt" := js "one" ]}, Sample.worldOf Zips.deflatedZip).
Proof. vm_compute. reflexivity. Qed.

(** A local header without its signature fails the call. *)
Example broken_local_header_fails :
  readFromZip Sample.node7 Sample.zipPath [js "x.txt"]
    (Sample.worldOf Zips.brokenZip)
  = (Err LocalHeaderCorrupt, opened Sample.zipPath (Sample.worldOf Zips.brokenZip)).
Proof. vm_compute. reflexivity. Qed.

(** A path that is not on disk: nothing is opened. *)
Example missing_archive_fails (rt : Runtime) wants w (path : jsstring) :
  disk w !! path = None -> readFromZip rt path wants w = (Err ENOENT, w).
Proof. intros Hd. unfold readFromZip, bind, openSync. by rewrite Hd. Qed.

(** An end record that states a central directory of [2^31] bytes: the
    read of the directory is refused, and the descriptor stays open. *)
Example directory_too_large_fails :
  findEocd Zips.hugeDirectoryZip = Some 89
  /\ directorySize Zips.hugeDirectoryZip 89 = 2 ^ 31
  /\ readFromZip Sample.node7 Sample.zipPath [] (Sample.worldOf Zips.hugeDirectoryZip)
     = (Err RangeError, opened Sample.zipPath (Sample.worldOf Zips.hugeDirectoryZip)).
Proof.
  split; [vm_compute; reflexivity|]. split; [vm_compute; reflexivity|].
  rewrite (readFromZip_selected Sample.node7 _ _ Zips.hugeDirectoryZip)
    by (vm_compute; reflexivity).
  vm_compute. reflexivity.
Qed.

(** Two members named [__proto__] are selected and extracted, and the
    mapping is empty. *)
Example proto_members_not_bound :
  length (selectedEntries Sample.node7 Zips.protoZip [js "__proto__"]) = 2%nat
  /\ readFromZip Sample.node7 Sample.zipPath [js "__proto__"]
       (Sample.worldOf Zips.protoZip)
     = (Ok ∅, Sample.worldOf Zips.protoZip).
Proof. vm_compute. split; reflexivity. Qed.

(** * Further properties *)

(** ** The field splitter *)

Lemma joinWith_cons sep (p : jsstring) (rest : list jsstring) :
  rest <> [] -> joinWith sep (p :: rest) = p ++ sep ++ joinWith sep rest.
Proof. by destruct rest. Qed.

Lemma joinWith_snoc sep (l : list jsstring) (a b : jsstring) :
  joinWith sep (l ++ [a; b]) = joinWith sep (l ++ [a]) ++ sep ++ b.
Proof.
  induction l as [|x l IH]; [done|].
  rewrite <- !app_comm_cons.
  rewrite !joinWith_cons by (by destruct l).
  rewrite IH. by rewrite <- !app_assoc.
Qed.

Lemma joinWith_grow sep (l : list jsstring) (a x : jsstring) :
  joinWith sep (l ++ [a ++ x]) = joinWith sep (l ++ [a]) ++ x.
Proof.
  induction l as [|y l IH]; [done|].
  rewrite <- !app_comm_cons.
  rewrite !joinWith_cons by (by destruct l).
  rewrite IH. by rewrite <- !app_assoc.
Qed.

(** Characters other than the quote, read outside quotes. *)
Lemma splitCsvLoop_join (line : list N) : forall out cur,
  DQUOTE ∉ line ->
  joinWith [COMMA] (splitCsvLoop line out cur false)
  = joinWith [COMMA] (out ++ [cur]) ++ line
  /\ length (splitCsvLoop line out cur false)
     = (length out + 1 + length (filter (fun c => c = COMMA) line))%nat.
Proof.
  induction line as [|ch rest IH]; intros out cur Hq.
  - simpl. rewrite app_nil_r, length_app. simpl. split; [done|lia].
  - apply not_elem_of_cons in Hq as [Hch Hq].
    destruct (decide (ch = COMMA)) as [->|Hc].
    + change (splitCsvLoop (COMMA :: rest) out cur false)
        with (splitCsvLoop rest (out ++ [cur]) [] false).
      destruct (IH (out ++ [cur]) [] Hq) as [Hj Hl]. split.
      * rewrite Hj, <- app_assoc. simpl. rewrite joinWith_snoc.
        by rewrite <- !app_assoc.
      * rewrite Hl, filter_cons_True, length_app by done. simpl. lia.
    + assert (splitCsvLoop (ch :: rest) out cur false
              = splitCsvLoop rest out (cur ++ [ch]) false) as ->.
      { simpl. replace (N.eqb ch DQUOTE) with false
          by (symmetry; apply N.eqb_neq; congruence).
        apply N.eqb_neq in Hc. by rewrite Hc. }
      destruct (IH out (cur ++ [ch]) Hq) as [Hj Hl]. split.
      * rewrite Hj, joinWith_grow. by rewrite <- !app_assoc.
      * rewrite Hl, filter_cons_False by done. lia.
Qed.

(** A piece without comma or quote, read outside quotes, goes to the field. *)
Lemma splitCsvLoop_plain (f : jsstring) : forall rest out cur,
  plainField f ->
  splitCsvLoop (f ++ rest) out cur false = splitCsvLoop rest out (cur ++ f) false.
Proof.
  induction f as [|ch f IH]; intros rest out cur [Hc Hq].
  - by rewrite app_nil_r.
  - apply not_elem_of_cons in Hc as [Hc1 Hc]. apply not_elem_of_cons in Hq as [Hq1 Hq].
    simpl.
    destruct (N.eqb ch DQUOTE) eqn:Eq; [apply N.eqb_eq in Eq; congruence|].
    destruct (N.eqb ch COMMA) eqn:Ec; [apply N.eqb_eq in Ec; congruence|].
    simpl. rewrite IH by done. by rewrite <- app_assoc.
Qed.

Lemma splitCsvLoop_plain_fields fields : forall f out cur,
  Forall plainField (f :: fields) ->
  splitCsvLoop (joinWith [COMMA] (f :: fields)) out cur false
  = out ++ (cur ++ f) :: fields.
Proof.
  induction fields as [|g fields IH]; intros f out cur Hall.
  - simpl. rewrite <- (app_nil_r f) at 1.
    rewrite splitCsvLoop_plain by (by inversion Hall). done.
  - inversion Hall as [|? ? Hf Hrest]; subst.
    change (joinWith [COMMA] (f :: g :: fields))
      with (f ++ COMMA :: joinWith [COMMA] (g :: fields)).
    rewrite splitCsvLoop_plain by done.
    change (splitCsvLoop (COMMA :: joinWith [COMMA] (g :: fields)) out (cur ++ f) false)
      with (splitCsvLoop (joinWith [COMMA] (g :: fields)) (out ++ [cur ++ f]) [] false).
    rewrite IH by done. by rewrite <- app_assoc.
Qed.

(** Inside quotes: the doubled quotes of an escaped field give the field
    back, and the quote after it, with no quote behind, closes. *)
Lemma splitCsvLoop_escaped (s : jsstring) : forall rest out cur,
  head rest <> Some DQUOTE ->
  splitCsvLoop (escapeQuotes s ++ DQUOTE :: rest) out cur true
  = splitCsvLoop rest out (cur ++ s) false.
Proof.
  induction s as [|c s IH]; intros rest out cur Hrest.
  - rewrite app_nil_r. simpl.
    destruct rest as [|n rest']; [done|].
    destruct (N.eqb n DQUOTE) eqn:E; [|done].
    apply N.eqb_eq in E. subst n. by destruct Hrest.
  - unfold escapeQuotes. simpl flat_map. fold (escapeQuotes s).
    destruct (N.eqb c DQUOTE) eqn:Ec.
    + apply N.eqb_eq in Ec. subst c.
      change (([DQUOTE; DQUOTE] ++ escapeQuotes s) ++ DQUOTE :: rest)
        with (DQUOTE :: DQUOTE :: (escapeQuotes s ++ DQUOTE :: rest)).
      change (splitCsvLoop (DQUOTE :: DQUOTE :: (escapeQuotes s ++ DQUOTE :: rest)) out cur true)
        with (splitCsvLoop (escapeQuotes s ++ DQUOTE :: rest) out (cur ++ [DQUOTE]) true).
      rewrite IH by done. by rewrite <- app_assoc.
    + change (([c] ++ escapeQuotes s) ++ DQUOTE :: rest)
        with (c :: (escapeQuotes s ++ DQUOTE :: rest)).
      simpl splitCsvLoop. rewrite Ec, andb_false_r.
      rewrite IH by done. by rewrite <- app_assoc.
Qed.

Lemma splitCsvLoop_quoted (s : jsstring) rest out cur :
  head rest <> Some DQUOTE ->
  splitCsvLoop (quoteField s ++ rest) out cur false
  = splitCsvLoop rest out (cur ++ s) false.
Proof.
  intros Hrest. unfold quoteField.
  change ((DQUOTE :: escapeQuotes s ++ [DQUOTE]) ++ rest)
    with (DQUOTE :: ((escapeQuotes s ++ [DQUOTE]) ++ rest)).
  rewrite <- app_assoc. simpl ([DQUOTE] ++ rest).
  transitivity (splitCsvLoop (escapeQuotes s ++ DQUOTE :: rest) out cur true).
  - simpl. destruct (escapeQuotes s ++ DQUOTE :: rest); done.
  - by apply splitCsvLoop_escaped.
Qed.

Lemma splitCsvLoop_quoted_fields fields : forall f out cur,
  splitCsvLoop (joinWith [COMMA] (quoteField <$> (f :: fields))) out cur false
  = out ++ (cur ++ f) :: fields.
Proof.
  induction fields as [|g fields IH]; intros f out cur.
  - change (joinWith [COMMA] (quoteField <$> [f])) with (quoteField f).
    rewrite <- (app_nil_r (quoteField f)).
    by rewrite splitCsvLoop_quoted.
  - change (joinWith [COMMA] (quoteField <$> f :: g :: fields))
      with (quoteField f ++ COMMA :: joinWith [COMMA] (quoteField <$> (g :: fields))).
    rewrite splitCsvLoop_quoted by (simpl; intros [=]).
    change (splitCsvLoop (COMMA :: joinWith [COMMA] (quoteField <$> g :: fields))
              out (cur ++ f) false)
      with (splitCsvLoop (joinWith [COMMA] (quoteField <$> (g :: fields)))
              (out ++ [cur ++ f]) [] false).
    rewrite IH. by rewrite <- app_assoc.
Qed.

(** Inside quotes that are never closed, everything is field. *)
Lemma splitCsvLoop_unclosed (rest : jsstring) : forall out cur,
  DQUOTE ∉ rest -> splitCsvLoop rest out cur true = out ++ [cur ++ rest].
Proof.
  induction rest as [|c rest IH]; intros out cur Hq.
  - by rewrite app_nil_r.
  - apply not_elem_of_cons in Hq as [Hc Hq]. simpl.
    destruct (N.eqb c DQUOTE) eqn:E; [apply N.eqb_eq in E; congruence|].
    rewrite andb_false_r.
    rewrite IH by done. by rewrite <- app_assoc.
Qed.

Lemma splitCsvLoop_written cells : forall c out cur,
  Forall goodCell (c :: cells) ->
  splitCsvLoop (writeLine (c :: cells)) out cur false
  = out ++ (cur ++ c.2) :: (snd <$> cells).
Proof.
  unfold writeLine.
  induction cells as [|d cells IH]; intros [q s] out cur Hall;
    inversion Hall as [|? ? Hc Hrest]; subst; simpl snd.
  - change (joinWith [COMMA] (writeField <$> [(q, s)])) with (writeField (q, s)).
    rewrite <- (app_nil_r (writeField (q, s))). unfold writeField. simpl fst. simpl snd.
    destruct q.
    + by rewrite splitCsvLoop_quoted.
    + by rewrite splitCsvLoop_plain by (by apply Hc).
  - change (joinWith [COMMA] (writeField <$> (q, s) :: d :: cells))
      with (writeField (q, s) ++ COMMA :: joinWith [COMMA] (writeField <$> (d :: cells))).
    assert (splitCsvLoop
              (writeField (q, s) ++ COMMA :: joinWith [COMMA] (writeField <$> (d :: cells)))
              out cur false
            = splitCsvLoop (COMMA :: joinWith [COMMA] (writeField <$> (d :: cells)))
                out (cur ++ s) false) as ->.
    { unfold writeField. simpl fst. simpl snd. destruct q.
      - by rewrite splitCsvLoop_quoted by (simpl; intros [=]).
      - by rewrite splitCsvLoop_plain by (by apply Hc). }
    change (splitCsvLoop (COMMA :: joinWith [COMMA] (writeField <$> d :: cells))
              out (cur ++ s) false)
      with (splitCsvLoop (joinWith [COMMA] (writeField <$> (d :: cells)))
              (out ++ [cur ++ s]) [] false).
    rewrite IH by done. by rewrite <- app_assoc.
Qed.

(** X1.  On a line without quote characters the splitter cuts at the commas
    and nowhere else: the fields joined by commas are the line again, and
    there is one field more than there are commas. *)
Theorem split_join_unquoted_line (line : list N) :
  DQUOTE ∉ line ->
  joinWith [COMMA] (splitCsvLine line) = line
  /\ length (splitCsvLine line)
     = S (length (filter (fun c => c = COMMA) line)).
Proof.
  intros Hq. destruct (splitCsvLoop_join line [] [] Hq) as [Hj Hl].
  unfold splitCsvLine. rewrite Hj, Hl. split; [done|]. simpl. lia.
Qed.

Lemma split_join_unquoted_line_witness :
  joinWith [COMMA] (splitCsvLine (js "x,,y z,")) = js "x,,y z,"
  /\ length (splitCsvLine (js "x,,y z,"))
     = S (length (filter (fun c => c = COMMA) (js "x,,y z,"))).
Proof.
  apply (split_join_unquoted_line (js "x,,y z,")).
  compute_done.
Defined.

Lemma splitCsvLine_written cells :
  cells <> [] -> Forall goodCell cells ->
  splitCsvLine (writeLine cells) = snd <$> cells.
Proof.
  intros Hne Hall. destruct cells as [|c cells]; [done|].
  unfold splitCsvLine. by rewrite splitCsvLoop_written.
Qed.

(** X2.  Fields written on a line, each either between quotes with its
    quotes doubled (whatever it holds: commas, quotes, nothing) or as it is
    when it has no comma and no quote, and joined by commas, are read back
    by the splitter as they were. *)
Theorem split_reads_written_fields (cells : list (bool * jsstring)) :
  cells <> [] ->
  Forall goodCell cells ->
  splitCsvLine (writeLine cells) = snd <$> cells.
Proof.
  intros Hne Hall. by apply splitCsvLine_written.
Qed.

Lemma split_reads_written_fields_witness :
  splitCsvLine (writeLine [(false, js "a"); (true, js "b,c" ++ [DQUOTE] ++ js "d"); (true, [])])
  = [js "a"; js "b,c" ++ [DQUOTE] ++ js "d"; []].
Proof.
  apply (split_reads_written_fields
           [(false, js "a"); (true, js "b,c" ++ [DQUOTE] ++ js "d"); (true, [])]).
  - discriminate.
  - apply Forall_cons_2; [intros _; split; compute_done|].
    apply Forall_cons_2; [intros [=]|].
    apply Forall_cons_2; [intros [=]|]. apply Forall_nil_2.
Defined.

Lemma unclosed_quote_takes_rest_aux (a b : jsstring) :
  plainField a -> DQUOTE ∉ b ->
  splitCsvLine (a ++ DQUOTE :: b) = [a ++ b].
Proof.
  intros Ha Hb. unfold splitCsvLine. rewrite splitCsvLoop_plain by done.
  transitivity (splitCsvLoop b [] ([] ++ a) true).
  - simpl. destruct b as [|n b']; [done|].
    apply not_elem_of_cons in Hb as [Hn _].
    destruct (N.eqb n DQUOTE) eqn:E; [apply N.eqb_eq in E; congruence|done].
  - by rewrite splitCsvLoop_unclosed.
Qed.

(** X3.  A quote that is opened and never closed raises no error: the quote
    character is dropped and the rest of the line, its commas included,
    belongs to the field that was being read. *)
Theorem unclosed_quote_takes_rest (a b : jsstring) :
  plainField a -> DQUOTE ∉ b ->
  splitCsvLine (a ++ DQUOTE :: b) = [a ++ b].
Proof. apply unclosed_quote_takes_rest_aux. Qed.

Lemma unclosed_quote_takes_rest_witness :
  splitCsvLine (js "ab" ++ DQUOTE :: js "c,d") = [js "ab" ++ js "c,d"].
Proof.
  apply (unclosed_quote_takes_rest (js "ab") (js "c,d")).
  - split; compute_done.
  - compute_done.
Defined.

(** ** The parser on what a writer writes *)

Lemma elem_of_joinWith (x : N) sep (ls : list jsstring) :
  x ∈ joinWith sep ls -> x ∈ sep \/ exists l, l ∈ ls /\ x ∈ l.
Proof.
  induction ls as [|l ls IH]; [by intros ?%elem_of_nil|].
  destruct ls as [|l' ls'].
  - simpl. intros Hx. right. exists l. split; [by left|done].
  - rewrite joinWith_cons by done.
    intros [Hx|[Hx|Hx]%elem_of_app]%elem_of_app.
    + right. exists l. split; [by left|done].
    + by left.
    + destruct (IH Hx) as [?|(l0 & Hl0 & Hx0)]; [by left|].
      right. exists l0. split; [by right|done].
Qed.

Lemma elem_of_escapeQuotes (x : N) (s : jsstring) :
  x ∈ escapeQuotes s -> x = DQUOTE \/ x ∈ s.
Proof.
  induction s as [|c s IH]; [by intros ?%elem_of_nil|].
  unfold escapeQuotes. simpl flat_map. fold (escapeQuotes s).
  intros [Hx|Hx]%elem_of_app.
  - destruct (N.eqb c DQUOTE).
    + left. apply elem_of_cons in Hx as [->|Hx]; [done|].
      apply elem_of_cons in Hx as [->|Hx]; [done|]. by apply elem_of_nil in Hx.
    + right. apply elem_of_cons in Hx as [->|Hx]; [by left|].
      by apply elem_of_nil in Hx.
  - destruct (IH Hx) as [?|?]; [by left|right; by right].
Qed.

(** A character that the writer does not add is in the line only if it is
    in a field. *)
Lemma elem_of_writeLine (x : N) cells :
  x <> COMMA -> x <> DQUOTE ->
  Forall (fun c : bool * jsstring => x ∉ c.2) cells -> x ∉ writeLine cells.
Proof.
  intros Hc Hq Hall Hx. unfold writeLine in Hx.
  apply elem_of_joinWith in Hx as [Hx|(l & Hl & Hx)].
  - apply elem_of_cons in Hx as [?|Hx]; [done|]. by apply elem_of_nil in Hx.
  - apply list_elem_of_fmap in Hl as ([q s] & -> & Hin).
    eapply Forall_forall in Hall; [|exact Hin]. simpl in Hall.
    unfold writeField in Hx. simpl in Hx. destruct q; [|done].
    unfold quoteField in Hx.
    apply elem_of_cons in Hx as [?|Hx]; [done|].
    apply elem_of_app in Hx as [Hx|Hx].
    + by apply elem_of_escapeQuotes in Hx as [?|?].
    + apply elem_of_cons in Hx as [?|Hx]; [done|]. by apply elem_of_nil in Hx.
Qed.

Lemma writeLine_plain cells :
  Forall (fun c : bool * jsstring => plainLine c.2) cells -> plainLine (writeLine cells).
Proof.
  intros Hall. repeat split; (apply elem_of_writeLine; [done|done|]);
    (eapply Forall_impl; [exact Hall|]); by intros c (? & ? & ?).
Qed.

(** A piece without line end goes to the line being read. *)
Lemma split_lines_plain (a : jsstring) : forall rest cur,
  LF ∉ a -> CR ∉ a ->
  split_lines (a ++ rest) cur = split_lines rest (cur ++ a).
Proof.
  induction a as [|c a IH]; intros rest cur Hl Hc.
  - by rewrite app_nil_r.
  - apply not_elem_of_cons in Hl as [Hl1 Hl]. apply not_elem_of_cons in Hc as [Hc1 Hc].
    simpl.
    replace (N.eqb c LF) with false by (symmetry; apply N.eqb_neq; congruence).
    replace (N.eqb c CR) with false by (symmetry; apply N.eqb_neq; congruence).
    rewrite IH by done. by rewrite <- app_assoc.
Qed.

Lemma split_lines_joined sep ls : forall l cur,
  sep = [LF] \/ sep = [CR; LF] ->
  Forall (fun a : jsstring => (LF ∉ a) /\ (CR ∉ a)) (l :: ls) ->
  split_lines (joinWith sep (l :: ls)) cur = (cur ++ l) :: ls.
Proof.
  induction ls as [|l' ls IH]; intros l cur Hsep Hall;
    inversion Hall as [|? ? [Hl Hc] Hrest]; subst.
  - simpl joinWith. rewrite <- (app_nil_r l) at 1.
    by rewrite split_lines_plain.
  - rewrite joinWith_cons by done. rewrite split_lines_plain by done.
    assert (split_lines (sep ++ joinWith sep (l' :: ls)) (cur ++ l)
            = (cur ++ l) :: split_lines (joinWith sep (l' :: ls)) []) as ->
      by (by destruct Hsep as [-> | ->]).
    by rewrite IH.
Qed.

Lemma joinWith_trailing sep (ls : list jsstring) :
  ls <> [] -> joinWith sep (ls ++ [[]]) = joinWith sep ls ++ sep.
Proof.
  intros Hne. destruct (exists_last Hne) as (init & a & ->).
  rewrite <- app_assoc. simpl ([a] ++ [[]]).
  by rewrite joinWith_snoc, app_nil_r.
Qed.

Lemma writeLine_nonempty cells : goodLine cells -> writeLine cells <> [].
Proof.
  intros (Hne & Hblank & _ & _). unfold writeLine.
  destruct cells as [|[q s] [|d cells]]; [done| |].
  - simpl. unfold writeField. simpl. destruct q; [done|].
    intros ->. by apply Hblank.
  - rewrite fmap_cons, joinWith_cons by done.
    intros H. apply app_eq_nil in H as [_ H]. done.
Qed.

Lemma isBlankRow_fields (cols : list jsstring) :
  cols <> [[]] -> isBlankRow cols = false.
Proof.
  intros H. destruct cols as [|c [|d cols]]; [done| |done].
  destruct c; [done|done].
Qed.

Lemma filter_full_lines (ls : list jsstring) (trailing : bool) :
  Forall (fun l : jsstring => (0 < length l)%nat) ls ->
  filter (fun l : jsstring => (0 < length l)%nat)
         (ls ++ (if trailing then [[]] else []))
  = ls.
Proof.
  induction 1 as [|a ls Ha _ IH].
  - destruct trailing; [|done]. by rewrite app_nil_l, filter_cons_False by (simpl; lia).
  - rewrite <- app_comm_cons, filter_cons_True by done. by rewrite IH.
Qed.

(** Lines that hold no line end and no U+FEFF and are not empty, joined by
    LF or by CR LF, are the lines of the text. *)
Lemma csvLines_joined (sep : jsstring) (trailing : bool) (lines : list jsstring) :
  sep = [LF] \/ sep = [CR; LF] ->
  lines <> [] ->
  Forall plainLine lines ->
  Forall (fun l : jsstring => (0 < length l)%nat) lines ->
  csvLines (joinWith sep lines ++ (if trailing then sep else [])) = lines.
Proof.
  intros Hsep Hne Hplain Hfull. unfold csvLines.
  assert (Htext : joinWith sep lines ++ (if trailing then sep else [])
                  = joinWith sep (lines ++ (if trailing then [[]] else []))).
  { destruct trailing; [by rewrite joinWith_trailing|by rewrite !app_nil_r]. }
  rewrite Htext.
  remember (lines ++ (if trailing then [[]] else [])) as all eqn:Eall.
  assert (Hall' : Forall plainLine all).
  { rewrite Eall. apply Forall_app. split; [done|].
    destruct trailing; [|done]. repeat constructor; by intros ?%elem_of_nil. }
  rewrite replace_FEFF_none.
  2:{ intros Hb. apply elem_of_joinWith in Hb as [Hb|(l & Hl & Hb)].
      - destruct Hsep as [-> | ->];
          repeat (apply elem_of_cons in Hb as [?|Hb]; [done|]);
          by apply elem_of_nil in Hb.
      - eapply Forall_forall in Hall'; [|exact Hl]. by destruct Hall' as (_ & _ & ?). }
  assert (Hfilter : filter (fun l0 : jsstring => (0 < length l0)%nat) all = lines)
    by (rewrite Eall; by apply filter_full_lines).
  destruct all as [|l ls]; [by destruct lines|].
  rewrite split_lines_joined;
    [|done|eapply Forall_impl; [exact Hall'|]; by intros a (? & ? & _)].
  exact Hfilter.
Qed.

(** The lines of a written text are the written lines. *)
Lemma csvLines_written sep trailing header rows :
  sep = [LF] \/ sep = [CR; LF] ->
  Forall goodLine (header :: rows) ->
  csvLines (writeCsv sep trailing header rows) = writeLine <$> (header :: rows).
Proof.
  intros Hsep Hall. unfold writeCsv. apply csvLines_joined; [done|done| |].
  - apply Forall_fmap. eapply Forall_impl; [exact Hall|].
    intros cells (_ & _ & _ & Hp). by apply writeLine_plain.
  - apply Forall_fmap. eapply Forall_impl; [exact Hall|].
    intros cells Hg. simpl. pose proof (writeLine_nonempty cells Hg).
    destruct (writeLine cells); [done|simpl; lia].
Qed.

(** X4.  Reading back a written table.  Write a header and rows, one line
    each, the lines separated by LF or by CR LF, with or without a line end
    after the last; let every line have a field and not be one empty field,
    every field be written between quotes unless it has no comma and no
    quote, and no field hold a line end or U+FEFF.  Then [parseCsv] answers
    one record for each row, in order: the fields of the row under the
    columns of the header. *)
Theorem parse_reads_written_table sep trailing header rows :
  sep = [LF] \/ sep = [CR; LF] ->
  Forall goodLine (header :: rows) ->
  parseCsv (writeCsv sep trailing header rows)
  = Ok ((fun row => makeRow (snd <$> header) (snd <$> row)) <$> rows).
Proof.
  intros Hsep Hall. rewrite parseCsv_run, (csvLines_written sep trailing) by done.
  rewrite fmap_cons. f_equal.
  inversion Hall as [|? ? Hh Hrows]; subst.
  rewrite splitCsvLine_written by (by destruct Hh as (? & _ & ? & _)).
  clear Hall. induction Hrows as [|row rows Hrow _ IH]; [done|].
  rewrite !fmap_cons, omap_cons_case. unfold rowOf at 1.
  destruct Hrow as (Hne & Hblank & Hgood & _).
  rewrite splitCsvLine_written by done.
  rewrite isBlankRow_fields by done. by rewrite IH.
Qed.

Lemma parse_reads_written_table_witness :
  parseCsv (writeCsv [CR; LF] true
              [(false, js "id"); (true, js "name, full")]
              [[(false, js "7"); (true, [])]])
  = Ok [makeRow [js "id"; js "name, full"] [js "7"; []]].
Proof.
  apply (parse_reads_written_table [CR; LF] true
           [(false, js "id"); (true, js "name, full")]
           [[(false, js "7"); (true, [])]]).
  - by right.
  - apply Forall_cons_2; [|apply Forall_cons_2; [|apply Forall_nil_2]];
      (split; [discriminate|split; [discriminate|split]]);
      repeat (first [apply Forall_cons_2 | apply Forall_nil_2]);
      unfold goodCell, plainLine, plainField; simpl;
      try (intros [=]); repeat split; compute_done.
Defined.

Lemma forEachHeader_dom header : forall j cols row,
  dom (forEachHeader header j cols row)
  = dom row ∪ (list_to_set header ∖ {[PROTO]}).
Proof.
  induction header as [|h hs IH]; intros j cols row; simpl.
  - apply set_eq. intros k.
    rewrite elem_of_union, elem_of_difference, elem_of_empty. by intuition.
  - rewrite IH. unfold obj_set. case_decide as Hp.
    + subst h. f_equal. apply set_eq. intros k.
      rewrite !elem_of_difference, elem_of_union, !elem_of_singleton.
      by intuition.
    + rewrite dom_insert_L. apply set_eq. intros k.
      rewrite !elem_of_union, !elem_of_difference, !elem_of_union,
        !elem_of_singleton.
      split; [|by intuition congruence].
      intros [[->|?]|[? ?]]; [|by left|by intuition].
      right. split; [by left|done].
Qed.

(** X5.  Every record of a parsed text has the same keys: the column names
    of the header line, [__proto__] apart, whatever the number of fields of
    its own line. *)
Theorem records_have_header_keys text headerLine dataLines rows :
  csvLines text = headerLine :: dataLines ->
  parseCsv text = Ok rows ->
  length rows = length (filter (fun l => isBlankRow (splitCsvLine l) = false) dataLines)
  /\ Forall (fun row : gmap jsstring jsstring =>
               dom row = list_to_set (splitCsvLine headerLine) ∖ {[PROTO]}) rows.
Proof.
  intros Hl. rewrite parseCsv_run, Hl. intros [= <-]. clear Hl.
  induction dataLines as [|l ls [IHn IHd]]; [by split|].
  rewrite omap_cons_case.
  assert (rowOf (splitCsvLine headerLine) l
          = if isBlankRow (splitCsvLine l) then None
            else Some (makeRow (splitCsvLine headerLine) (splitCsvLine l))) as ->
    by done.
  destruct (isBlankRow (splitCsvLine l)) eqn:E.
  - rewrite filter_cons_False by (rewrite E; done). by split.
  - rewrite filter_cons_True by done. split; [simpl; by rewrite IHn|].
    constructor; [|done]. unfold makeRow.
    by rewrite forEachHeader_dom, dom_empty_L, union_empty_l_L.
Qed.

Lemma records_have_header_keys_witness :
  length [makeRow [js "a"; js "b"] [js "x"]]
  = length (filter (fun l => isBlankRow (splitCsvLine l) = false) [js "x"; [DQUOTE]])
  /\ Forall (fun row : gmap jsstring jsstring =>
               dom row = list_to_set (splitCsvLine (js "a,b")) ∖ {[PROTO]})
            [makeRow [js "a"; js "b"] [js "x"]].
Proof.
  apply (records_have_header_keys (js "a,b" ++ [LF] ++ js "x" ++ [LF; DQUOTE])
           (js "a,b") [js "x"; [DQUOTE]]).
  - vm_compute. reflexivity.
  - vm_compute. reflexivity.
Defined.


Lemma escapeQuotes_plain (s : jsstring) : DQUOTE ∉ s -> escapeQuotes s = s.
Proof.
  induction s as [|c s IH]; intros Hq; [done|].
  apply not_elem_of_cons in Hq as [Hc Hq].
  unfold escapeQuotes. simpl flat_map. fold (escapeQuotes s).
  replace (N.eqb c DQUOTE) with false by (symmetry; apply N.eqb_neq; congruence).
  by rewrite IH.
Qed.

(** X6.  Quotes do not keep a line together.  When a field written between
    quotes holds a line feed, the text is cut there before any field is
    read: the two halves are read as two data lines, each giving a record
    of one field, with its quote dropped. *)
Theorem quoted_line_feed_cuts_record (h a b : jsstring) :
  h <> [] -> plainLine h ->
  a <> [] -> plainLine a -> plainField a ->
  b <> [] -> plainLine b -> plainField b ->
  parseCsv (h ++ [LF] ++ quoteField (a ++ LF :: b))
  = Ok [makeRow (splitCsvLine h) [a]; makeRow (splitCsvLine h) [b]].
Proof.
  intros Hh Hph Ha Hpa Hfa Hb Hpb Hfb.
  assert (Htext : h ++ [LF] ++ quoteField (a ++ LF :: b)
                  = joinWith [LF] [h; DQUOTE :: a; b ++ [DQUOTE]] ++ []).
  { unfold quoteField. rewrite escapeQuotes_plain.
    - simpl. rewrite app_nil_r, <- !app_assoc. done.
    - intros [?|Hx]%elem_of_app; [by destruct Hfa|].
      apply elem_of_cons in Hx as [?|?]; [done|by destruct Hfb]. }
  assert (Hq : plainLine [DQUOTE])
    by (repeat split; intros Hx%elem_of_cons; destruct Hx as [?|Hx]; try done;
        by apply elem_of_nil in Hx).
  assert (Hlines : csvLines (h ++ [LF] ++ quoteField (a ++ LF :: b))
                   = [h; DQUOTE :: a; b ++ [DQUOTE]]).
  { rewrite Htext. apply (csvLines_joined [LF] false); [by left|done| |].
    - destruct Hph as (? & ? & ?), Hpa as (? & ? & ?), Hpb as (? & ? & ?),
        Hq as (? & ? & ?).
      repeat constructor; try done;
        try (intros [?|?]%elem_of_cons; done);
        try (intros [?|?]%elem_of_app; done).
    - apply Forall_cons_2; [destruct h; [done|simpl; lia]|].
      apply Forall_cons_2; [simpl; lia|].
      apply Forall_cons_2; [rewrite length_app; simpl; lia|]. apply Forall_nil_2. }
  rewrite parseCsv_run, Hlines.
  assert (Hfirst : splitCsvLine (DQUOTE :: a) = [a]).
  { change (DQUOTE :: a) with ([] ++ DQUOTE :: a).
    rewrite unclosed_quote_takes_rest_aux;
      [done|split; by intros ?%elem_of_nil|by destruct Hfa]. }
  assert (Hsecond : splitCsvLine (b ++ [DQUOTE]) = [b]).
  { rewrite unclosed_quote_takes_rest_aux; [by rewrite app_nil_r|done|].
    by intros ?%elem_of_nil. }
  rewrite !omap_cons_case. unfold rowOf. rewrite Hfirst, Hsecond.
  destruct a; [done|]. destruct b; [done|]. done.
Qed.

Lemma quoted_line_feed_cuts_record_witness :
  parseCsv (js "k" ++ [LF] ++ quoteField (js "x" ++ LF :: js "y"))
  = Ok [makeRow (splitCsvLine (js "k")) [js "x"];
        makeRow (splitCsvLine (js "k")) [js "y"]].
Proof.
  apply (quoted_line_feed_cuts_record (js "k") (js "x") (js "y"));
    first [discriminate | repeat split; compute_done].
Defined.

(** ** The reader *)

Lemma extractAllFrom_first_error rt f pre e post out err :
  Forall (fun a => exists text, extractFrom rt f a = Ok text) pre ->
  extractFrom rt f e = Err err ->
  extractAllFrom rt f (pre ++ e :: post) out = Err err.
Proof.
  intros Hpre He. revert out.
  induction Hpre as [|a pre [text Ha] _ IH]; intros out; simpl.
  - by rewrite He.
  - rewrite Ha. simpl. apply IH.
Qed.

Lemma pickEntries_same_names rt (wantSet1 wantSet2 : list jsstring) entries :
  (forall x, x ∈ wantSet1 <-> x ∈ wantSet2) ->
  pickEntries rt wantSet1 entries = pickEntries rt wantSet2 entries.
Proof.
  intros Hsame. unfold pickEntries.
  induction entries as [|e entries IH]; [done|].
  destruct (decide (toLowerCase rt (path_basename rt (name e)) ∈ wantSet1)) as [Hin|Hout].
  - rewrite !filter_cons_True by (done || by apply Hsame). by rewrite IH.
  - rewrite !filter_cons_False by (done || by rewrite <- Hsame). done.
Qed.

(** X7.  The mapping holds requested members only: every key of it is the
    base name of an entry of the central directory, and its lower-case form
    is the lower-case form of a wanted name. *)
Theorem only_wanted_names_returned (rt : Runtime) path wants f w m w' k :
  disk w !! path = Some f ->
  readFromZip rt path wants w = (Ok m, w') ->
  is_Some (m !! k) ->
  toLowerCase rt k ∈ (toLowerCase rt <$> wants)
  /\ exists e, e ∈ centralEntries rt f /\ path_basename rt (name e) = k.
Proof.
  intros Hd Hr Hk.
  destruct (readFromZip_Ok rt path wants f w m w' Hd Hr) as (_ & _ & E).
  destruct (decide (Exists (fun e => path_basename rt (name e) = k)
                           (selectedEntries rt f wants))) as [Hex|Hno].
  - apply Exists_exists in Hex as (e & He & <-).
    unfold selectedEntries, pickEntries in He.
    apply list_elem_of_filter in He as [Hw He]. eauto.
  - exfalso. rewrite (extractAllFrom_other_keys rt f _ ∅ m k E) in Hk.
    + rewrite lookup_empty in Hk. by destruct Hk.
    + intros e He Heq. apply Hno, Exists_exists. eauto.
Qed.

Lemma only_wanted_names_returned_witness :
  toLowerCase Sample.node7 (js "x.txt") ∈ (toLowerCase Sample.node7 <$> [js "X.TXT"])
  /\ exists e, e ∈ centralEntries Sample.node7 Zips.dupZip
               /\ path_basename Sample.node7 (name e) = js "x.txt".
Proof.
  apply (only_wanted_names_returned Sample.node7 Sample.zipPath [js "X.TXT"]
           Zips.dupZip (Sample.worldOf Zips.dupZip)
           {[ js "x.txt" := js "two" ]} (Sample.worldOf Zips.dupZip)).
  - vm_compute. reflexivity.
  - vm_compute. reflexivity.
  - rewrite lookup_singleton_eq. eauto.
Defined.

(** X8.  On an archive whose end record is found and states a central
    directory of less than [2^31] bytes: when no entry of the directory has
    a wanted base name, in particular when no name is wanted, the call
    returns the empty mapping and closes its descriptor: no local header is
    read, so members that are damaged or compressed by a method the reader
    does not know do no harm as long as they are not asked for. *)
Theorem nothing_wanted_nothing_read (rt : Runtime) path wants f w p :
  disk w !! path = Some f ->
  findEocd f = Some p ->
  directorySize f p < 2 ^ 31 ->
  (forall e, e ∈ centralEntries rt f ->
     toLowerCase rt (path_basename rt (name e)) ∉ (toLowerCase rt <$> wants)) ->
  readFromZip rt path wants w = (Ok ∅, w).
Proof.
  intros Hd Hp Hsmall Hnone. apply readable_spec in Hsmall.
  rewrite (readFromZip_selected rt path wants f), Hp, Hsmall by done.
  assert (selectedEntries rt f wants = []) as ->; [|done].
  unfold selectedEntries, pickEntries.
  induction (centralEntries rt f) as [|e es IH]; [done|].
  rewrite filter_cons_False by (apply Hnone; by left).
  apply IH. intros e' He'. apply Hnone. by right.
Qed.

Lemma nothing_wanted_nothing_read_witness :
  readFromZip Sample.node7 Sample.zipPath [js "stops.txt"] (Sample.worldOf Zips.bzipZip)
  = (Ok ∅, Sample.worldOf Zips.bzipZip).
Proof.
  apply (nothing_wanted_nothing_read Sample.node7 Sample.zipPath [js "stops.txt"]
           Zips.bzipZip (Sample.worldOf Zips.bzipZip) 89).
  - vm_compute. reflexivity.
  - vm_compute. reflexivity.
  - vm_compute. reflexivity.
  - intros e He. vm_compute in He.
    apply elem_of_cons in He as [->|He]; [compute_done|by apply elem_of_nil in He].
Defined.

(** X9.  The wanted names count as a set of lower-case names: two lists
    with the same lower-case names, in any order, with or without
    repetitions, give the same result and leave the same world. *)
Theorem wanted_names_as_set (rt : Runtime) path wants1 wants2 f w :
  disk w !! path = Some f ->
  (forall x, x ∈ (toLowerCase rt <$> wants1) <-> x ∈ (toLowerCase rt <$> wants2)) ->
  readFromZip rt path wants1 w = readFromZip rt path wants2 w.
Proof.
  intros Hd Hsame. rewrite !(readFromZip_selected rt path _ f) by done.
  unfold selectedEntries. by rewrite (pickEntries_same_names rt _ _ _ Hsame).
Qed.

Lemma wanted_names_as_set_witness :
  readFromZip Sample.node7 Sample.zipPath [js "x.txt"; js "y.txt"]
    (Sample.worldOf Zips.dupZip)
  = readFromZip Sample.node7 Sample.zipPath [js "Y.TXT"; js "X.txt"; js "y.txt"]
      (Sample.worldOf Zips.dupZip).
Proof.
  apply (wanted_names_as_set Sample.node7 Sample.zipPath
           [js "x.txt"; js "y.txt"] [js "Y.TXT"; js "X.txt"; js "y.txt"]
           Zips.dupZip (Sample.worldOf Zips.dupZip)).
  - vm_compute. reflexivity.
  - intros x.
    assert (toLowerCase Sample.node7 <$> [js "x.txt"; js "y.txt"]
            = [js "x.txt"; js "y.txt"]) as -> by (vm_compute; reflexivity).
    assert (toLowerCase Sample.node7 <$> [js "Y.TXT"; js "X.txt"; js "y.txt"]
            = [js "y.txt"; js "x.txt"; js "y.txt"]) as -> by (vm_compute; reflexivity).
    rewrite !elem_of_cons, !elem_of_nil. tauto.
Defined.



(** X11.  A local header offset so near the end of the file, or past it,
    that four bytes do not fit there is answered by the corrupt-local-header
    error: the read past the end gives zero bytes, and is no failure of its
    own. *)
Theorem header_past_end_is_corrupt (rt : Runtime) fd f w e :
  fileOf fd w = Some f ->
  entryInRange e ->
  blen f < localHdrOff e + 4 ->
  extractEntryAsText rt fd e w = (Err LocalHeaderCorrupt, w).
Proof.
  intros Hf Hin Hpast.
  apply (extractEntryAsText_unsound rt fd f); [done|by destruct Hin|].
  assert (byteAt f (localHdrOff e + 3) = 0) as Hzero.
  { unfold byteAt. destruct Hin as [Hoff _].
    rewrite lookup_ge_None_2 by (unfold blen in Hpast; lia). done. }
  unfold u32le, LOCAL_SIG. rewrite Hzero.
  pose proof (byteAt_range f (localHdrOff e)).
  pose proof (byteAt_range f (localHdrOff e + 1)).
  pose proof (byteAt_range f (localHdrOff e + 2)). lia.
Qed.

Lemma header_past_end_is_corrupt_witness :
  extractEntryAsText Sample.node7 0 (mkEntry (js "x.txt") 1000 3 3 0)
    (opened Sample.zipPath (Sample.worldOf Zips.extraZip))
  = (Err LocalHeaderCorrupt, opened Sample.zipPath (Sample.worldOf Zips.extraZip)).
Proof.
  apply (header_past_end_is_corrupt Sample.node7 0 Zips.extraZip).
  - vm_compute. reflexivity.
  - split; simpl; lia.
  - vm_compute. reflexivity.
Defined.

(** ** A written archive, read back *)

Lemma byteZ_byte_of n : byteZ (Sample.byte_of n) = n mod 256.
Proof.
  unfold byteZ, Sample.byte_of.
  assert (Hr : 0 <= n mod 256 < 256) by (apply Z.mod_pos_bound; lia).
  destruct (Byte.of_N (Z.to_N (n mod 256))) as [b|] eqn:E.
  - apply Byte.to_of_N in E. simpl. rewrite E. lia.
  - apply Byte.of_N_None_iff in E. lia.
Qed.

Lemma byteAt_app_l (a b : list byte) k :
  0 <= k < blen a -> byteAt (a ++ b) k = byteAt a k.
Proof. intros Hk. unfold byteAt, blen in *. by rewrite lookup_app_l by lia. Qed.

Lemma byteAt_app_r (a b : list byte) k :
  0 <= k -> byteAt (a ++ b) (blen a + k) = byteAt b k.
Proof.
  intros Hk. unfold byteAt, blen. rewrite lookup_app_r by lia.
  do 3 f_equal. lia.
Qed.

Lemma u32le_app_l (a b : list byte) k :
  0 <= k -> k + 4 <= blen a -> u32le (a ++ b) k = u32le a k.
Proof. intros. unfold u32le. by rewrite !byteAt_app_l by lia. Qed.

Lemma u16le_app_l (a b : list byte) k :
  0 <= k -> k + 2 <= blen a -> u16le (a ++ b) k = u16le a k.
Proof. intros. unfold u16le. by rewrite !byteAt_app_l by lia. Qed.

Lemma u32le_app_r (a b : list byte) k :
  0 <= k -> u32le (a ++ b) (blen a + k) = u32le b k.
Proof.
  intros. unfold u32le. rewrite <- !Z.add_assoc. by rewrite !byteAt_app_r by lia.
Qed.

Lemma u16le_app_r (a b : list byte) k :
  0 <= k -> u16le (a ++ b) (blen a + k) = u16le b k.
Proof.
  intros. unfold u16le. rewrite <- !Z.add_assoc. by rewrite !byteAt_app_r by lia.
Qed.

Lemma u32le_le32 n rest : 0 <= n < 2 ^ 32 -> u32le (Sample.le32 n ++ rest) 0 = n.
Proof.
  intros Hn. unfold u32le, byteAt. simpl. rewrite !byteZ_byte_of.
  change (Z.pow_pos 2 8) with 256. change (Z.pow_pos 2 16) with 65536.
  change (Z.pow_pos 2 24) with 16777216.
  Z.to_euclidean_division_equations. lia.
Qed.

Lemma u16le_le16 n rest : 0 <= n < 2 ^ 16 -> u16le (Sample.le16 n ++ rest) 0 = n.
Proof.
  intros Hn. unfold u16le, byteAt. simpl. rewrite !byteZ_byte_of.
  change (Z.pow_pos 2 8) with 256.
  Z.to_euclidean_division_equations. lia.
Qed.

Lemma u32le_field (pre post : list byte) n :
  0 <= n < 2 ^ 32 -> u32le (pre ++ Sample.le32 n ++ post) (blen pre) = n.
Proof.
  intros Hn. rewrite <- (Z.add_0_r (blen pre)), u32le_app_r by lia.
  by apply u32le_le32.
Qed.

Lemma u16le_field (pre post : list byte) n :
  0 <= n < 2 ^ 16 -> u16le (pre ++ Sample.le16 n ++ post) (blen pre) = n.
Proof.
  intros Hn. rewrite <- (Z.add_0_r (blen pre)), u16le_app_r by lia.
  by apply u16le_le16.
Qed.

Section Written.
Import Sample.
Variables (method : Z) (fname extra data : list byte).
Hypothesis method_range : 0 <= method < 2 ^ 16.
Hypothesis fname_range : blen fname < 2 ^ 16.
Hypothesis extra_range : blen extra < 2 ^ 16.
Hypothesis size_range : 30 + blen fname + blen extra + blen data < 2 ^ 32.

Let L := localFile LOCAL_SIG method fname extra data.

Lemma localFile_length : blen L = 30 + blen fname + blen extra + blen data.
Proof. unfold L, localFile, blen. rewrite !length_app. simpl. lia. Qed.

Lemma localFile_signature : u32le L 0 = LOCAL_SIG.
Proof. exact (u32le_field [] _ LOCAL_SIG ltac:(unfold LOCAL_SIG; lia)). Qed.

Lemma localFile_nameLen : u16le L 26 = blen fname.
Proof.
  exact (u16le_field
           (le32 LOCAL_SIG ++ le16 20 ++ le16 0 ++ le16 method ++ le16 0 ++ le16 0
            ++ le32 0 ++ le32 (blen data) ++ le32 (blen data))
           (le16 (blen extra) ++ fname ++ extra ++ data) (blen fname)
           ltac:(unfold blen in *; lia)).
Qed.

Lemma localFile_extraLen : u16le L 28 = blen extra.
Proof.
  exact (u16le_field
           (le32 LOCAL_SIG ++ le16 20 ++ le16 0 ++ le16 method ++ le16 0 ++ le16 0
            ++ le32 0 ++ le32 (blen data) ++ le32 (blen data) ++ le16 (blen fname))
           (fname ++ extra ++ data) (blen extra)
           ltac:(unfold blen in *; lia)).
Qed.

Lemma localFile_data rest :
  pread (L ++ rest) (30 + blen fname + blen extra) (blen data) = data.
Proof.
  pose proof localFile_length as Hlen.
  rewrite pread_inside
    by (unfold blen in *; rewrite ?length_app; lia).
  assert (L = (take 30 L ++ fname ++ extra) ++ data) as HL
    by (unfold L, localFile; simpl; by rewrite <- !app_assoc).
  rewrite HL at 1. rewrite <- app_assoc.
  rewrite drop_app_length'.
  - rewrite take_app_length'; [done|unfold blen; lia].
  - rewrite !length_app, length_take. unfold blen in *. lia.
Qed.

Let C := centralHeader CEN_SIG method (blen data) fname 0.

Lemma centralHeader_length : blen C = 46 + blen fname.
Proof. unfold C, centralHeader, blen. rewrite !length_app. simpl. lia. Qed.

Lemma centralHeader_signature : u32le C 0 = CEN_SIG.
Proof. exact (u32le_field [] _ CEN_SIG ltac:(unfold CEN_SIG; lia)). Qed.

Lemma centralHeader_span : headerSpan C 0 = 46 + blen fname.
Proof.
  unfold headerSpan.
  assert (u16le C (0 + 28) = blen fname) as ->.
  { exact (u16le_field
             (le32 CEN_SIG ++ le16 20 ++ le16 20 ++ le16 0 ++ le16 method ++ le16 0
              ++ le16 0 ++ le32 0 ++ le32 (blen data) ++ le32 (blen data))
             (le16 0 ++ le16 0 ++ le16 0 ++ le16 0 ++ le32 0 ++ le32 0 ++ fname)
             (blen fname) ltac:(unfold blen in *; lia)). }
  assert (u16le C (0 + 30) = 0) as ->.
  { exact (u16le_field
             (le32 CEN_SIG ++ le16 20 ++ le16 20 ++ le16 0 ++ le16 method ++ le16 0
              ++ le16 0 ++ le32 0 ++ le32 (blen data) ++ le32 (blen data)
              ++ le16 (blen fname))
             (le16 0 ++ le16 0 ++ le16 0 ++ le32 0 ++ le32 0 ++ fname)
             0 ltac:(lia)). }
  assert (u16le C (0 + 32) = 0) as ->.
  { exact (u16le_field
             (le32 CEN_SIG ++ le16 20 ++ le16 20 ++ le16 0 ++ le16 method ++ le16 0
              ++ le16 0 ++ le32 0 ++ le32 (blen data) ++ le32 (blen data)
              ++ le16 (blen fname) ++ le16 0)
             (le16 0 ++ le16 0 ++ le32 0 ++ le32 0 ++ fname)
             0 ltac:(lia)). }
  lia.
Qed.

Lemma centralHeader_entry rt :
  entryAt rt C 0 = mkEntry (toString_utf8 rt fname) 0 (blen data) (blen data) method.
Proof.
  unfold entryAt.
  assert (u16le C (0 + 28) = blen fname) as ->.
  { exact (u16le_field
             (le32 CEN_SIG ++ le16 20 ++ le16 20 ++ le16 0 ++ le16 method ++ le16 0
              ++ le16 0 ++ le32 0 ++ le32 (blen data) ++ le32 (blen data))
             (le16 0 ++ le16 0 ++ le16 0 ++ le16 0 ++ le32 0 ++ le32 0 ++ fname)
             (blen fname) ltac:(unfold blen in *; lia)). }
  assert (u32le C (0 + 42) = 0) as ->.
  { exact (u32le_field
             (le32 CEN_SIG ++ le16 20 ++ le16 20 ++ le16 0 ++ le16 method ++ le16 0
              ++ le16 0 ++ le32 0 ++ le32 (blen data) ++ le32 (blen data)
              ++ le16 (blen fname) ++ le16 0 ++ le16 0 ++ le16 0 ++ le16 0 ++ le32 0)
             fname 0 ltac:(lia)). }
  assert (u32le C (0 + 20) = blen data) as ->.
  { exact (u32le_field
             (le32 CEN_SIG ++ le16 20 ++ le16 20 ++ le16 0 ++ le16 method ++ le16 0
              ++ le16 0 ++ le32 0)
             (le32 (blen data) ++ le16 (blen fname) ++ le16 0 ++ le16 0 ++ le16 0
              ++ le16 0 ++ le32 0 ++ le32 0 ++ fname)
             (blen data) ltac:(unfold blen in *; lia)). }
  assert (u32le C (0 + 24) = blen data) as ->.
  { exact (u32le_field
             (le32 CEN_SIG ++ le16 20 ++ le16 20 ++ le16 0 ++ le16 method ++ le16 0
              ++ le16 0 ++ le32 0 ++ le32 (blen data))
             (le16 (blen fname) ++ le16 0 ++ le16 0 ++ le16 0
              ++ le16 0 ++ le32 0 ++ le32 0 ++ fname)
             (blen data) ltac:(unfold blen in *; lia)). }
  assert (u16le C (0 + 10) = method) as ->.
  { exact (u16le_field
             (le32 CEN_SIG ++ le16 20 ++ le16 20 ++ le16 0)
             (le16 0 ++ le16 0 ++ le32 0 ++ le32 (blen data) ++ le32 (blen data)
              ++ le16 (blen fname) ++ le16 0 ++ le16 0 ++ le16 0
              ++ le16 0 ++ le32 0 ++ le32 0 ++ fname)
             method method_range). }
  assert (Buffer_slice C (0 + 46) (0 + 46 + blen fname) = fname) as ->; [|done].
  unfold Buffer_slice.
  replace (Z.to_nat (0 + 46 + blen fname - (0 + 46))) with (length fname)
    by (unfold blen; lia).
  assert (C = take 46 C ++ fname) as -> by (unfold C, centralHeader; simpl; done).
  rewrite drop_app_length' by (rewrite length_take; pose proof centralHeader_length;
                               unfold blen in *; lia).
  by rewrite firstn_all.
Qed.

(** The walk of the one header. *)
Lemma centralHeader_walk rt :
  walkCentralDirectory rt (length C) C 0 []
  = Ok [mkEntry (toString_utf8 rt fname) 0 (blen data) (blen data) method].
Proof.
  pose proof centralHeader_length as Hlen.
  destruct (length C) as [|fuel] eqn:E; [unfold blen in Hlen; lia|].
  rewrite walk_step
    by (lia || (rewrite Hlen; unfold blen; lia) || apply centralHeader_signature).
  rewrite walk_end by (rewrite centralHeader_span; lia).
  by rewrite centralHeader_entry.
Qed.

Variable count : Z.
Let f := archive L C count.

Lemma archive_eocd : findEocd f = Some (blen L + blen C).
Proof.
  apply findEocd_Some. unfold isEocdAt, tailStart.
  assert (Hlen : blen f = blen L + blen C + 22).
  { unfold f, archive, eocd, blen. rewrite !length_app. simpl. lia. }
  rewrite Hlen. split; [unfold blen, maxComment; lia|]. split; [|intros q Hq; lia].
  unfold f, archive. rewrite app_assoc.
  replace (blen L + blen C) with (blen (L ++ C))
    by (unfold blen; rewrite length_app; lia).
  exact (u32le_field (L ++ C) _ EOCD_SIG ltac:(unfold EOCD_SIG; lia)).
Qed.

Lemma archive_directorySize : directorySize f (blen L + blen C) = blen C.
Proof.
  unfold directorySize.
  pose proof localFile_length as HL. pose proof centralHeader_length as HC.
  set (pre := (L ++ C) ++ le32 EOCD_SIG ++ le16 0 ++ le16 0
              ++ le16 count ++ le16 count).
  assert (f = pre ++ le32 (blen C) ++ (le32 (blen L) ++ le16 0)) as ->
    by (unfold f, archive, eocd, pre; by rewrite <- !app_assoc).
  replace (blen L + blen C + 12) with (blen pre)
    by (unfold pre, blen; rewrite !length_app; simpl; lia).
  apply u32le_field. unfold blen in *; lia.
Qed.

Lemma archive_directory : centralDirectoryOf f (blen L + blen C) = C.
Proof.
  unfold centralDirectoryOf.
  pose proof localFile_length as HL. pose proof centralHeader_length as HC.
  pose proof archive_directorySize as Hsize. unfold directorySize in Hsize.
  rewrite Hsize.
  assert (u32le f (blen L + blen C + 16) = blen L) as ->.
  { set (pre := (L ++ C) ++ le32 EOCD_SIG ++ le16 0 ++ le16 0
                ++ le16 count ++ le16 count ++ le32 (blen C)).
    assert (f = pre ++ le32 (blen L) ++ le16 0) as ->
      by (unfold f, archive, eocd, pre; by rewrite <- !app_assoc).
    replace (blen L + blen C + 16) with (blen pre)
      by (unfold pre, blen; rewrite !length_app; simpl; lia).
    apply u32le_field. unfold blen in *; lia. }
  unfold f, archive.
  rewrite pread_inside by (unfold blen in *; rewrite ?length_app; lia).
  rewrite drop_app_length' by (unfold blen; lia).
  rewrite take_app_length' by (unfold blen; lia). done.
Qed.
End Written.



(** With a bound that covers the bytes left, the walk adds at most one
    entry for every 46 bytes left. *)
Lemma walk_count rt fuel cdBuf : forall p entries,
  0 <= p -> blen cdBuf - p <= 46 * Z.of_nat fuel ->
  exists more,
    walkCentralDirectory rt fuel cdBuf p entries = Ok (entries ++ more)
    /\ 46 * Z.of_nat (length more) <= Z.max 0 (blen cdBuf - p).
Proof.
  induction fuel as [|fuel IH]; intros p entries Hp Hfuel.
  - exists []. rewrite app_nil_r. split; [apply walk_end; lia|simpl; lia].
  - destruct (decide (p + 46 <= blen cdBuf)) as [Hroom|Hroom].
    + destruct (decide (u32le cdBuf p = CEN_SIG)) as [Hsig|Hsig].
      * rewrite walk_step by done.
        pose proof (headerSpan_min cdBuf p) as Hspan.
        destruct (IH (p + headerSpan cdBuf p) (entries ++ [entryAt rt cdBuf p]))
          as (more & Hw & Hn); [lia|lia|].
        exists (entryAt rt cdBuf p :: more).
        rewrite Hw, <- app_assoc. split; [done|]. simpl length. lia.
      * exists []. rewrite app_nil_r. split; [by apply walk_break|simpl; lia].
    + exists []. rewrite app_nil_r. split; [apply walk_end; lia|simpl; lia].
Qed.

(** X13.  The central directory yields at most one entry for every 46 bytes
    of the size that the end record states, whatever the entry counts of
    the record say (the reader does not look at them). *)
Theorem entries_bounded_by_directory_size (rt : Runtime) f p :
  findEocd f = Some p ->
  46 * Z.of_nat (length (centralEntries rt f)) <= u32le f (p + 12).
Proof.
  intros Hp. unfold centralEntries. rewrite Hp. cbv zeta.
  set (cdBuf := centralDirectoryOf f p).
  assert (Hlen : blen cdBuf = u32le f (p + 12)).
  { unfold cdBuf, centralDirectoryOf. rewrite pread_length.
    pose proof (u32le_range f (p + 12)). lia. }
  destruct (walk_count rt (length cdBuf) cdBuf 0 []) as (more & Hw & Hn);
    [lia|unfold blen; lia|].
  rewrite Hw, app_nil_l. pose proof (u32le_range f (p + 12)). lia.
Qed.

Lemma entries_bounded_by_directory_size_witness :
  46 * Z.of_nat (length (centralEntries Sample.node7 Zips.junkZip))
  <= u32le Zips.junkZip (135 + 12).
Proof.
  apply (entries_bounded_by_directory_size Sample.node7 Zips.junkZip 135).
  vm_compute. reflexivity.
Defined.

(** ** The scripts around the reader *)

(** *** Command-line arguments *)

Lemma argEntry_key (arr : list jsstring) (i : nat) (a : jsstring) : (argEntry arr i a).1 = argKey a.
Proof. unfold argEntry, argKey. by destruct (startsWithDashes a). Qed.

Lemma imap_argEntry_keys (f : nat -> jsstring -> jsstring * ArgValue) (l : list jsstring) :
  (forall i a, (f i a).1 = argKey a) ->
  fst <$> imap f l = argKey <$> l.
Proof.
  revert f. induction l as [|a l IH]; intros f Hf; [done|].
  simpl. rewrite Hf. f_equal. apply IH. intros i b. apply Hf.
Qed.

Lemma Map_of_from (pairs : list (jsstring * ArgValue)) :
  forall (m : gmap jsstring ArgValue) (k : jsstring),
  k ∉ (fst <$> pairs) ->
  foldl (fun m kv => <[kv.1 := kv.2]> m) m pairs !! k = m !! k.
Proof.
  induction pairs as [|[k' v'] pairs IH]; intros m k Hk; [done|].
  simpl in *. apply not_elem_of_cons in Hk as [Hne Hk].
  rewrite IH by done. by apply lookup_insert_ne.
Qed.

(** The value under a key is that of the last pair with the key. *)
Lemma Map_of_last (l1 l2 : list (jsstring * ArgValue)) (k : jsstring) (v : ArgValue) :
  k ∉ (fst <$> l2) -> Map_of (l1 ++ (k, v) :: l2) !! k = Some v.
Proof.
  intros Hk. unfold Map_of. rewrite foldl_app. simpl.
  rewrite Map_of_from by done. apply lookup_insert_eq.
Qed.

Lemma Map_of_dom (pairs : list (jsstring * ArgValue)) :
  forall m : gmap jsstring ArgValue,
  dom (foldl (fun m kv => <[kv.1 := kv.2]> m) m pairs)
  = dom m ∪ list_to_set (fst <$> pairs).
Proof.
  induction pairs as [|[k v] pairs IH]; intros m; simpl.
  - by rewrite union_empty_r_L.
  - rewrite IH, dom_insert_L. apply set_eq. intros x.
    rewrite !elem_of_union, elem_of_singleton. tauto.
Qed.

Lemma parseArgs_at (pre post : list jsstring) (a : jsstring) :
  (forall b, b ∈ post -> argKey b <> argKey a) ->
  parseArgs (pre ++ a :: post) !! argKey a
  = Some (argEntry (pre ++ a :: post) (length pre) a).2.
Proof.
  intros Hpost. unfold parseArgs.
  rewrite imap_app, imap_cons, Nat.add_0_r.
  rewrite <- (argEntry_key (pre ++ a :: post) (length pre) a) at 1.
  destruct (argEntry (pre ++ a :: post) (length pre) a) as [k v] eqn:E.
  simpl. apply Map_of_last.
  rewrite imap_argEntry_keys by (intros; apply argEntry_key).
  intros Hin. apply list_elem_of_fmap in Hin as (b & Hkb & Hb).
  apply (Hpost b Hb). rewrite <- Hkb.
  by rewrite <- (argEntry_key (pre ++ a :: post) (length pre) a), E.
Qed.

(** X14.  An option with its value: for the arguments [--k v], where [v] is
    not empty and does not start with [--], the map binds [k] to [v],
    provided no later argument is entered under [k] (the value [v] itself
    counts: it is entered under its own text); and when [--k] is the last
    argument or the next one starts with [--], the map binds [k] to [true]. *)
Theorem option_value_parsed (pre post : list jsstring) (k v : jsstring) :
  (forall b, b ∈ post -> argKey b <> k) ->
  (v <> [] -> startsWithDashes v = false -> v <> k ->
     parseArgs (pre ++ (js "--" ++ k) :: v :: post) !! k = Some (ArgText v))
  /\ (startsWithDashes v = true -> argKey v <> k ->
        parseArgs (pre ++ (js "--" ++ k) :: v :: post) !! k = Some ArgTrue)
  /\ (parseArgs (pre ++ [js "--" ++ k]) !! k = Some ArgTrue).
Proof.
  intros Hpost.
  assert (Hkey : argKey (js "--" ++ k) = k) by done.
  assert (Hnext : forall rest : list jsstring,
             (pre ++ (js "--" ++ k) :: rest) !! S (length pre) = rest !! 0%nat).
  { intros rest. rewrite lookup_app_r by lia.
    by replace (S (length pre) - length pre)%nat with 1%nat by lia. }
  split; [|split].
  - intros Hne Hd Hvk.
    assert (Hlater : forall b, b ∈ v :: post -> argKey b <> argKey (js "--" ++ k)).
    { rewrite Hkey. intros b [->|Hb]%elem_of_cons; [|by apply Hpost].
      unfold argKey. by rewrite Hd. }
    pose proof (parseArgs_at pre (v :: post) (js "--" ++ k) Hlater) as H.
    rewrite Hkey in H. etransitivity; [exact H|].
    unfold argEntry. simpl startsWithDashes. cbv iota.
    rewrite Hnext. simpl. rewrite bool_decide_false by done. by rewrite Hd.
  - intros Hd Hvk.
    assert (Hlater : forall b, b ∈ v :: post -> argKey b <> argKey (js "--" ++ k)).
    { rewrite Hkey. intros b [->|Hb]%elem_of_cons; [done|by apply Hpost]. }
    pose proof (parseArgs_at pre (v :: post) (js "--" ++ k) Hlater) as H.
    rewrite Hkey in H. etransitivity; [exact H|].
    unfold argEntry. simpl startsWithDashes. cbv iota.
    rewrite Hnext. simpl. rewrite Hd. by rewrite andb_false_r.
  - assert (Hlater : forall b, b ∈ [] -> argKey b <> argKey (js "--" ++ k))
      by (intros b Hb; by apply elem_of_nil in Hb).
    pose proof (parseArgs_at pre [] (js "--" ++ k) Hlater) as H.
    rewrite Hkey in H. etransitivity; [exact H|].
    unfold argEntry. simpl startsWithDashes. cbv iota.
    rewrite Hnext. done.
Qed.

Lemma option_value_parsed_witness :
  parseArgs ([js "x"] ++ (js "--" ++ js "zip") :: js "a.zip" :: [js "--routes"; js "7"])
    !! js "zip" = Some (ArgText (js "a.zip")).
Proof.
  refine (proj1 (option_value_parsed [js "x"] [js "--routes"; js "7"]
                   (js "zip") (js "a.zip") _) _ _ _).
  - intros b Hb. apply elem_of_cons in Hb as [->|Hb]; [vm_compute; discriminate|].
    apply elem_of_cons in Hb as [->|Hb]; [vm_compute; discriminate|].
    by apply elem_of_nil in Hb.
  - discriminate.
  - reflexivity.
  - vm_compute. discriminate.
Defined.

(** X15.  Every argument is a key of the map, the values of options
    too: the keys are the arguments, those that start with [--] without
    their two dashes. *)
Theorem every_argument_is_a_key (argv : list jsstring) :
  dom (parseArgs argv) = list_to_set (argKey <$> argv).
Proof.
  unfold parseArgs, Map_of. rewrite Map_of_dom, dom_empty_L, union_empty_l_L.
  by rewrite imap_argEntry_keys by (intros; apply argEntry_key).
Qed.

Lemma argEntry_value_truthy (arr : list jsstring) (i : nat) (a : jsstring) :
  (argEntry arr i a).2 = ArgTrue
  \/ exists c s, (argEntry arr i a).2 = ArgText (c :: s).
Proof.
  unfold argEntry. destruct (startsWithDashes a); [|by left]. simpl.
  destruct (arr !! S i) as [[|c s]|]; [by left| |by left].
  destruct (negb (bool_decide (c :: s = [])) && negb (startsWithDashes (c :: s)));
    [right; eauto|by left].
Qed.

(** X19.  The path of the archive.  When some argument is entered under
    [zip], the path is the value of the last such argument, even when that
    value is [true] (a bare [--zip], or an argument that reads [zip]), and
    the environment variable is not looked at; when none is, the path is
    the environment variable, or the empty string when the variable is not
    set. *)
Theorem zip_path_from_last_zip_argument (argv : list jsstring) (env : option jsstring) :
  (forall pre a post,
     argv = pre ++ a :: post ->
     argKey a = js "zip" ->
     (forall b, b ∈ post -> argKey b <> js "zip") ->
     chooseZipPath (parseArgs argv) env = (argEntry argv (length pre) a).2)
  /\ ((forall a, a ∈ argv -> argKey a <> js "zip") ->
      chooseZipPath (parseArgs argv) env = ArgText (default [] env)).
Proof.
  split.
  - intros pre a post -> Hkey Hpost.
    assert (Hlater : forall b, b ∈ post -> argKey b <> argKey a)
      by (rewrite Hkey; exact Hpost).
    pose proof (parseArgs_at pre post a Hlater) as H. rewrite Hkey in H.
    unfold chooseZipPath. rewrite H.
    destruct (argEntry_value_truthy (pre ++ a :: post) (length pre) a)
      as [-> | (c & s & ->)]; done.
  - intros Hnone. unfold chooseZipPath.
    assert (parseArgs argv !! js "zip" = None) as ->.
    { apply not_elem_of_dom. unfold parseArgs, Map_of.
      rewrite Map_of_dom, dom_empty_L, union_empty_l_L.
      rewrite imap_argEntry_keys by (intros; apply argEntry_key).
      rewrite elem_of_list_to_set. intros (a & Ha & Hin)%list_elem_of_fmap.
      by apply (Hnone a Hin). }
    by destruct env as [[|c s]|].
Qed.

(** A bare [--zip] wins over the environment variable: the path is [true]. *)
Example bare_zip_flag_hides_environment :
  chooseZipPath (parseArgs [js "--zip"]) (Some (js "feed.zip")) = ArgTrue.
Proof. vm_compute. reflexivity. Qed.

(** *** Trips from origin to destination *)

(** What the loop answers from index [i] on, when the origin was seen
    before ([originIdx] is its index, below [i]) or not ([originIdx = -1]). *)
Lemma scanStops_keeps (o d : jsstring) (arr : list (option jsstring)) :
  forall i originIdx,
  0 <= i -> (originIdx = -1 \/ 0 <= originIdx < i) ->
  (let '(a, b) := scanStops o d arr i originIdx in
   negb (a =? -1) && negb (b =? -1) && (a <? b)) = true
  <-> exists pre post,
        arr = pre ++ Some d :: post /\ (Some d ∉ pre)
        /\ (originIdx <> -1 \/ Some o ∈ pre).
Proof.
  induction arr as [|st rest IH]; intros i oi Hi Hoi.
  - simpl. rewrite andb_false_r. split; [done|].
    intros (pre & post & Harr & _). by destruct pre.
  - simpl scanStops. unfold stopIs.
    set (oi' := if bool_decide (st = Some o) && (oi =? -1) then i else oi).
    assert (Hoi' : (oi' <> -1 <-> oi <> -1 \/ st = Some o)
                   /\ (oi' = -1 \/ 0 <= oi' < i + 1)
                   /\ (oi <> -1 -> oi' = oi)
                   /\ (oi = -1 -> oi' = -1 \/ oi' = i)).
    { unfold oi'. destruct (bool_decide_reflect (st = Some o)) as [He|He];
        destruct (oi =? -1) eqn:E; simpl;
        [apply Z.eqb_eq in E|apply Z.eqb_neq in E|apply Z.eqb_eq in E
         |apply Z.eqb_neq in E]; repeat split; try tauto; try lia. }
    destruct Hoi' as (Hne & Hrange & Hkeep & Hfresh).
    destruct (bool_decide_reflect (st = Some d)) as [Hd|Hd].
    + subst st. split.
      * intros Hk. exists [], rest. split; [done|]. split; [by intros ?%elem_of_nil|].
        left. intros ->. destruct (Hfresh eq_refl) as [-> | ->].
        -- done.
        -- rewrite Z.ltb_irrefl, andb_false_r in Hk. done.
      * intros (pre & post & Harr & Hpre & Horig).
        destruct pre as [|x pre].
        2:{ injection Harr as <- _. exfalso. apply Hpre. by left. }
        destruct Horig as [Ho|Ho]; [|by apply elem_of_nil in Ho].
        rewrite (Hkeep Ho).
        destruct Hoi as [?|Hr]; [done|].
        apply andb_true_iff. split; [apply andb_true_iff; split|].
        -- apply negb_true_iff, Z.eqb_neq. done.
        -- apply negb_true_iff, Z.eqb_neq. lia.
        -- apply Z.ltb_lt. lia.
    + rewrite (IH (i + 1) oi') by (lia || done). split.
      * intros (pre & post & -> & Hpre & Horig).
        exists (st :: pre), post. split; [done|]. split.
        -- intros [?|?]%elem_of_cons; [congruence|done].
        -- destruct Horig as [Ho|Ho]; [|right; by right].
           apply Hne in Ho as [?|?]; [by left|right; apply elem_of_cons; by left].
      * intros (pre & post & Harr & Hpre & Horig).
        destruct pre as [|x pre]; [injection Harr as -> _; done|].
        injection Harr as <- ->.
        exists pre, post. split; [done|]. split.
        -- intros Hin. apply Hpre. by right.
        -- destruct Horig as [Ho|Ho]; [left; apply Hne; by left|].
           apply elem_of_cons in Ho as [Ho|Ho]; [|by right].
           left. apply Hne. right. congruence.
Qed.

Lemma keepsTrip_spec (o d : jsstring) (arr : list (option jsstring)) :
  keepsTrip o d arr = true
  <-> exists pre post,
        arr = pre ++ Some d :: post /\ (Some d ∉ pre) /\ (Some o ∈ pre).
Proof.
  unfold keepsTrip.
  pose proof (scanStops_keeps o d arr 0 (-1)) as H.
  destruct (scanStops o d arr 0 (-1)) as [a b].
  rewrite H by (lia || by left).
  split; intros (pre & post & Harr & Hpre & Ho); exists pre, post;
    (split; [done|]); (split; [done|]); [by destruct Ho|by right].
Qed.

(** X16.  With origin and destination both set, a trip is in
    [finalTripIds] exactly when some stop time of it with the origin stop
    comes before its first stop time with the destination stop; a trip that
    reaches the destination first and the origin later is left out even if
    it comes to the destination again, and with the same stop as origin and
    destination no trip is kept.  With either of the two not set, every
    trip is kept. *)
Theorem trips_kept_origin_before_first_destination
    (o d : jsstring) (trips : list (jsstring * list (option jsstring))) (k : jsstring) :
  (o <> [] -> d <> [] ->
     (k ∈ finalTripIds o d trips
      <-> exists arr pre post,
            (k, arr) ∈ trips /\ arr = pre ++ Some d :: post
            /\ (Some d ∉ pre) /\ (Some o ∈ pre))
     /\ (o = d -> finalTripIds o d trips = ∅))
  /\ (o = [] \/ d = [] -> finalTripIds o d trips = list_to_set (fst <$> trips)).
Proof.
  split.
  - intros Ho Hd. unfold finalTripIds.
    rewrite !bool_decide_false by done. simpl.
    assert (Hmem : forall k',
               k' ∈ (list_to_set
                       (fst <$> filter (fun kv => keepsTrip o d kv.2 = true) trips)
                     : gset jsstring)
               <-> exists arr pre post,
                     (k', arr) ∈ trips /\ arr = pre ++ Some d :: post
                     /\ (Some d ∉ pre) /\ (Some o ∈ pre)).
    { intros k'. rewrite elem_of_list_to_set, list_elem_of_fmap. split.
      - intros ([k0 arr] & -> & Hin). apply list_elem_of_filter in Hin as [Hk Hin].
        apply keepsTrip_spec in Hk as (pre & post & ? & ? & ?).
        exists arr, pre, post. done.
      - intros (arr & pre & post & Hin & Harr & Hpre & Hor).
        exists (k', arr). split; [done|]. apply list_elem_of_filter. split; [|done].
        apply keepsTrip_spec. eauto. }
    split; [apply Hmem|].
    intros ->. apply set_eq. intros k'. rewrite Hmem, elem_of_empty.
    split; [|done]. intros (arr & pre & post & _ & _ & Hpre & Hor). done.
  - intros Hunset. unfold finalTripIds.
    destruct Hunset as [-> | ->]; [done|].
    by rewrite andb_false_r.
Qed.

(** *** Projection of the records *)

Section ProjectFacts.
Context (G : Globals).
Variables (keepCols : list jsstring) (r : gmap jsstring jsstring).
Hypothesis keep_plain : forall k, k ∈ keepCols -> inherited G k = false /\ k <> PROTO.

(** The field of the record under [k] as text, and as the numeric step
    leaves it. *)
Let asText (k : jsstring) : Value G := VText (default [] (r !! k)).
Let asNumber (k : jsstring) : Value G :=
  match r !! k with
  | Some (c :: s) => VNumber (Number_of G (c :: s))
  | _ => VText []
  end.

Lemma keep_fold (l : list jsstring) : forall (o : gmap jsstring (Value G)) k,
  (forall k', k' ∈ l -> k' ∈ keepCols) ->
  foldl (keepStep G r) o l !! k = if decide (k ∈ l) then Some (asText k) else o !! k.
Proof.
  induction l as [|a l IH]; intros o k Hl.
  - destruct (decide (k ∈ [])) as [Hin|_]; [by apply elem_of_nil in Hin|done].
  - simpl foldl. rewrite IH by (intros k' Hk'; apply Hl; by right).
    destruct (keep_plain a) as [Hinh Hproto]; [apply Hl; by left|].
    destruct (decide (k ∈ l)) as [Hin|Hout].
    + by rewrite decide_True by (by right).
    + unfold keepStep, outSet, rowGet. rewrite decide_False by done.
      destruct (decide (k = a)) as [->|Hne].
      * rewrite decide_True by (by left). rewrite lookup_insert_eq. unfold asText.
        destruct (r !! a); [done|]. by rewrite Hinh.
      * rewrite decide_False by (intros [?|?]%elem_of_cons; done).
        by rewrite lookup_insert_ne.
Qed.

(** The records in which the columns of [seen] have gone through the
    numeric step. *)
Let converted (seen : list jsstring) (o : gmap jsstring (Value G)) : Prop :=
  forall k, o !! k = if decide (k ∈ keepCols)
                     then Some (if decide (k ∈ seen) then asNumber k else asText k)
                     else None.

Lemma numericStep_converted seen o nk :
  nk ∈ keepCols -> converted seen o -> converted (nk :: seen) (numericStep G o nk).
Proof.
  intros Hnk Ho k. destruct (keep_plain nk Hnk) as [Hinh Hproto].
  pose proof (Ho nk) as Hcur. rewrite decide_True in Hcur by done.
  assert (Hstep : numericStep G o nk = <[nk := asNumber nk]> o).
  { unfold numericStep, outGet. rewrite Hcur.
    destruct (decide (nk ∈ seen)).
    - unfold asNumber in *. destruct (r !! nk) as [[|c s]|] eqn:E;
        unfold outSet; rewrite ?decide_False by done; simpl;
        by rewrite ?insert_id by done.
    - unfold asText, asNumber in *. destruct (r !! nk) as [[|c s]|] eqn:E; simpl;
        unfold outSet; rewrite ?decide_False by done; simpl;
        by rewrite ?insert_id by done. }
  rewrite Hstep. destruct (decide (k = nk)) as [->|Hne].
  - rewrite lookup_insert_eq, decide_True by done.
    by rewrite decide_True by (by left).
  - rewrite lookup_insert_ne by done. rewrite Ho.
    destruct (decide (k ∈ keepCols)); [|done].
    destruct (decide (k ∈ seen)).
    + by rewrite decide_True by (by right).
    + by rewrite decide_False by (intros [?|?]%elem_of_cons; done).
Qed.

Lemma numeric_fold (l : list jsstring) : forall seen o,
  (forall nk, nk ∈ l -> nk ∈ keepCols) ->
  converted seen o -> converted (reverse l ++ seen) (foldl (numericStep G) o l).
Proof.
  induction l as [|nk l IH]; intros seen o Hl Ho; [done|].
  simpl. rewrite reverse_cons, <- app_assoc. simpl.
  apply IH; [intros x Hx; apply Hl; by right|].
  apply numericStep_converted; [apply Hl; by left|done].
Qed.

Lemma projectRow_lookup numericCols k :
  (forall nk, nk ∈ numericCols -> nk ∈ keepCols) ->
  projectRow G keepCols numericCols r !! k
  = if decide (k ∈ keepCols)
    then Some (if decide (k ∈ numericCols) then asNumber k else asText k)
    else None.
Proof.
  intros Hsub. unfold projectRow.
  assert (H0 : converted [] (foldl (keepStep G r) ∅ keepCols)).
  { intros k'. rewrite keep_fold by done. rewrite lookup_empty.
    destruct (decide (k' ∈ keepCols)); [|done].
    destruct (decide (k' ∈ [])) as [Hin|_]; [by apply elem_of_nil in Hin|done]. }
  pose proof (numeric_fold numericCols [] _ Hsub H0 k) as H.
  rewrite H. destruct (decide (k ∈ keepCols)); [|done].
  rewrite app_nil_r.
  destruct (decide (k ∈ numericCols)).
  - by rewrite decide_True by (by apply elem_of_reverse).
  - by rewrite decide_False by (by rewrite elem_of_reverse).
Qed.
End ProjectFacts.

(** X17.  Let no kept column be named as a property of [Object.prototype]
    is, and let the numeric columns be among the kept ones.  Then every
    projected record has exactly the kept columns; a column that is not
    numeric holds the field of the record, or the empty string when the
    record has no such field; a numeric column holds the number read from
    the field, and the empty string when the field is empty or missing. *)
Theorem projected_record_fields (G : Globals) (keepCols numericCols : list jsstring)
    (r : gmap jsstring jsstring) :
  (forall k, k ∈ keepCols -> inherited G k = false /\ k <> PROTO) ->
  (forall nk, nk ∈ numericCols -> nk ∈ keepCols) ->
  let o := projectRow G keepCols numericCols r in
  dom o = list_to_set keepCols
  /\ (forall k, k ∈ keepCols -> k ∉ numericCols ->
        o !! k = Some (VText (default [] (r !! k))))
  /\ (forall k, k ∈ keepCols -> k ∈ numericCols ->
        o !! k = Some match r !! k with
                      | Some (c :: s) => VNumber (Number_of G (c :: s))
                      | _ => VText []
                      end).
Proof.
  intros Hkeep Hsub o.
  pose proof (projectRow_lookup G keepCols r Hkeep numericCols) as H.
  split; [|split].
  - apply set_eq. intros k. rewrite elem_of_dom, elem_of_list_to_set.
    unfold o. rewrite H by done.
    destruct (decide (k ∈ keepCols)) as [Hin|Hout].
    + split; [done|intros _; eauto].
    + split; [by intros [? ?]|done].
  - intros k Hk Hn. unfold o. rewrite H by done.
    by rewrite decide_True, decide_False.
  - intros k Hk Hn. unfold o. rewrite H by done.
    by rewrite !decide_True.
Qed.

Lemma projected_record_fields_witness :
  let o := projectRow SampleGlobals.globals
             [js "trip_id"; js "direction_id"; js "trip_headsign"]
             [js "direction_id"]
             {[ js "trip_id" := js "t1"; js "direction_id" := js "1";
                js "block_id" := js "b" ]} in
  dom o = list_to_set [js "trip_id"; js "direction_id"; js "trip_headsign"]
  /\ o !! js "trip_headsign" = Some (VText [])
  /\ o !! js "direction_id" = Some (VNumber (Some 1 : num SampleGlobals.globals)).
Proof.
  intros o.
  destruct (projected_record_fields SampleGlobals.globals
              [js "trip_id"; js "direction_id"; js "trip_headsign"]
              [js "direction_id"]
              {[ js "trip_id" := js "t1"; js "direction_id" := js "1";
                 js "block_id" := js "b" ]}) as (Hdom & Htext & Hnum).
  - intros k Hk. repeat (apply elem_of_cons in Hk as [->|Hk]; [by vm_compute|]).
    by apply elem_of_nil in Hk.
  - intros nk Hnk. apply elem_of_cons in Hnk as [->|Hnk]; [|by apply elem_of_nil in Hnk].
    compute_done.
  - split; [exact Hdom|]. split.
    + etransitivity; [apply (Htext (js "trip_headsign")); compute_done|].
      by vm_compute.
    + etransitivity; [apply (Hnum (js "direction_id")); compute_done|].
      by vm_compute.
Defined.

(** *** The calendar tables *)

Lemma tableOf_total (found : gmap jsstring jsstring) (key : jsstring) :
  exists rows, tableOf found key = Ok rows
               /\ (found !! key = None -> rows = []).
Proof.
  unfold tableOf. destruct (found !! key) as [[|c s]|] eqn:E.
  - exists []. done.
  - rewrite parseCsv_run. eexists. split; [done|]. done.
  - exists []. done.
Qed.

(** X18.  The reader matches the wanted names without regard to case, but
    the calendar script looks its tables up under [calendar.txt] and
    [calendar_dates.txt] as spelled: when the reader returns its mapping,
    the script answers two lists of rows and no error, and a table whose
    member is spelled otherwise in every entry of the archive comes out
    empty, as if the member were absent, though the reader has extracted
    it. *)
Theorem calendar_found_by_exact_name_only (rt : Runtime) path f w found w' :
  disk w !! path = Some f ->
  readFromZip rt path [js "calendar.txt"; js "calendar_dates.txt"] w = (Ok found, w') ->
  exists calCsv datesCsv,
    loadCalendars rt path w = (Ok (calCsv, datesCsv), w)
    /\ ((forall e, e ∈ centralEntries rt f ->
           path_basename rt (name e) <> js "calendar.txt") -> calCsv = [])
    /\ ((forall e, e ∈ centralEntries rt f ->
           path_basename rt (name e) <> js "calendar_dates.txt") -> datesCsv = []).
Proof.
  intros Hd Hr.
  destruct (readFromZip_Ok rt path _ f w found w' Hd Hr) as (Hw & _ & E).
  subst w'.
  assert (Hnone : forall k,
             (forall e, e ∈ centralEntries rt f -> path_basename rt (name e) <> k) ->
             found !! k = None).
  { intros k Hk.
    rewrite (extractAllFrom_other_keys rt f _ ∅ found k E); [done|].
    intros e He. apply Hk. unfold selectedEntries, pickEntries in He.
    by apply list_elem_of_filter in He as [_ He]. }
  destruct (tableOf_total found (js "calendar.txt")) as (cal & Hcal & Hcal0).
  destruct (tableOf_total found (js "calendar_dates.txt")) as (dates & Hdates & Hdates0).
  exists cal, dates. split; [|split].
  - unfold loadCalendars. rewrite (bind_ok _ _ _ _ _ Hr).
    rewrite liftR_bind, Hcal, liftR_bind, Hdates. done.
  - intros Hk. apply Hcal0. by apply Hnone.
  - intros Hk. apply Hdates0. by apply Hnone.
Qed.

Lemma calendar_found_by_exact_name_only_witness :
  exists calCsv datesCsv,
    loadCalendars Sample.node7 Sample.zipPath (Sample.worldOf MoreZips.capsZip)
    = (Ok (calCsv, datesCsv), Sample.worldOf MoreZips.capsZip)
    /\ ((forall e, e ∈ centralEntries Sample.node7 MoreZips.capsZip ->
           path_basename Sample.node7 (name e) <> js "calendar.txt") -> calCsv = [])
    /\ ((forall e, e ∈ centralEntries Sample.node7 MoreZips.capsZip ->
           path_basename Sample.node7 (name e) <> js "calendar_dates.txt") ->
        datesCsv = []).
Proof.
  apply (calendar_found_by_exact_name_only Sample.node7 Sample.zipPath
           MoreZips.capsZip (Sample.worldOf MoreZips.capsZip)
           {[ js "Calendar.TXT" := js "service_id,monday" ++ [LF] ++ js "S1,1" ++ [LF] ]}
           (Sample.worldOf MoreZips.capsZip)).
  - vm_compute. reflexivity.
  - vm_compute. reflexivity.
Defined.

(** The sample with [Calendar.TXT]: the member is extracted, and the table
    is empty. *)
Example capital_calendar_is_lost :
  loadCalendars Sample.node7 Sample.zipPath (Sample.worldOf MoreZips.capsZip)
  = (Ok ([], []), Sample.worldOf MoreZips.capsZip).
Proof. vm_compute. reflexivity. Qed.
